(** * J_pdf: the image-folder-to-PDF pipeline of [app.py]

    A shallow embedding of [natural_sort_key], [convert_images_to_pdf] and
    its caller [ImageToPdfApp.start_conversion], and the properties of the
    conversion pipeline proved over it.

    Conventions of the embedding:
    - a Python [str] is a list of Unicode code points ([N]);
    - a Python [float] is a binary64 primitive float, a Python [int] is a [Z];
    - a Python call that may raise returns a [result]; code with effects
      (progress callbacks, the canvas, the file written by [save]) runs in
      the state-and-exception monad [M];
    - what the operating system, PIL and reportlab answer is read from a
      [world] record of oracles. *)

From Stdlib Require Import ZArith NArith List Bool Lia.
From Stdlib Require Import Permutation Sorted Floats Uint63.
From Stdlib Require Ascii String.
Import ListNotations.
Import String.StringSyntax.
Delimit Scope string_scope with string.

Set Implicit Arguments.

(** ** Python strings *)

(** A [str]: its code points, in order. *)
Definition str := list N.

(** Decoder for the UTF-8 bytes of a literal of this file into code points
    ([need] continuation bytes are still expected for [acc]). *)
Fixpoint utf8_decode (bs : list N) (need : nat) (acc : N) : str :=
  match bs with
  | [] => []
  | b :: bs' =>
      match need with
      | O =>
          if (b <? 0x80)%N then b :: utf8_decode bs' 0 0%N
          else if (b <? 0xE0)%N then utf8_decode bs' 1 (N.land b 0x1F)
          else if (b <? 0xF0)%N then utf8_decode bs' 2 (N.land b 0x0F)
          else utf8_decode bs' 3 (N.land b 0x07)
      | S k =>
          let acc' := (acc * 64 + N.land b 0x3F)%N in
          match k with
          | O => acc' :: utf8_decode bs' 0 0%N
          | S _ => utf8_decode bs' k acc'
          end
      end
  end.

(** A string literal of the source, as a [str]. *)
Definition u (s : String.string) : str :=
  utf8_decode (map Ascii.N_of_ascii (String.list_ascii_of_string s)) 0 0%N.
Arguments u s%_string.

Definition str_eqb (a b : str) : bool :=
  if list_eq_dec N.eq_dec a b then true else false.

(** [a < b] on [str]: lexicographic on code points, a proper prefix first. *)
Fixpoint str_ltb (a b : str) : bool :=
  match a, b with
  | _, [] => false
  | [], _ :: _ => true
  | x :: a', y :: b' =>
      if (x <? y)%N then true
      else if (x =? y)%N then str_ltb a' b' else false
  end.

(** [s.endswith(suffix)]. *)
Definition endswith1 (s suffix : str) : bool :=
  str_eqb (skipn (length s - length suffix) s) suffix
  && (length suffix <=? length s)%nat.

(** [s.endswith(suffixes)] for a tuple of suffixes. *)
Definition endswith (s : str) (suffixes : list str) : bool :=
  existsb (endswith1 s) suffixes.

(** [str(n)] for a non-negative [int]. *)
Fixpoint str_of_uint (d : Decimal.uint) : str :=
  match d with
  | Decimal.Nil => []
  | Decimal.D0 d' => 48%N :: str_of_uint d'
  | Decimal.D1 d' => 49%N :: str_of_uint d'
  | Decimal.D2 d' => 50%N :: str_of_uint d'
  | Decimal.D3 d' => 51%N :: str_of_uint d'
  | Decimal.D4 d' => 52%N :: str_of_uint d'
  | Decimal.D5 d' => 53%N :: str_of_uint d'
  | Decimal.D6 d' => 54%N :: str_of_uint d'
  | Decimal.D7 d' => 55%N :: str_of_uint d'
  | Decimal.D8 d' => 56%N :: str_of_uint d'
  | Decimal.D9 d' => 57%N :: str_of_uint d'
  end.

Definition str_of_nat (n : nat) : str := str_of_uint (Nat.to_uint n).

(** ** Exceptions and results *)

(** The classes of [Exception] the pipeline meets. *)
Inductive exn_class :=
| OSError | ValueError | TypeError | ZeroDivisionError
| OverflowError | AttributeError | OtherException.

(** An instance of [Exception]: its class and [str(e)]. *)
Record exn := Exn { exn_cls : exn_class; exn_str : str }.

(** What evaluating an expression gives: a value, or a raised exception. *)
Inductive result (A : Type) :=
| Ret (a : A)
| Raise (e : exn).
Arguments Ret {A} a.
Arguments Raise {A} e.

Definition rbind {A B} (r : result A) (k : A -> result B) : result B :=
  match r with
  | Ret a => k a
  | Raise e => Raise e
  end.

Definition is_ret {A} (r : result A) : bool :=
  match r with Ret _ => true | Raise _ => false end.

Declare Scope result_scope.
Delimit Scope result_scope with result.
Notation "x <- r ;; k" := (rbind r (fun x => k))
  (at level 61, r at next level, right associativity) : result_scope.

Fixpoint rmap {A B} (f : A -> result B) (l : list A) : result (list B) :=
  match l with
  | [] => Ret []
  | x :: l' => (y <- f x ;; ys <- rmap f l' ;; Ret (y :: ys))%result
  end.

(** ** The Unicode character database

    [re], [str.isdigit], [int] and [str.lower] read the interpreter's
    Unicode tables.  The model takes them as an interface, with the facts
    about them that the proofs use. *)

Definition ascii_lower_char (c : N) : N :=
  if ((65 <=? c) && (c <=? 90))%N then (c + 32)%N else c.

Definition is_ascii (c : N) : Prop := (c < 128)%N.

Class Unicode := {
  (** The value of a decimal digit (category Nd): what [\d] matches and
      [int] reads. *)
  to_decimal : N -> option Z;
  (** [c.isdigit()] for one character. *)
  is_digit : N -> bool;
  (** [s.lower()]. *)
  str_lower : str -> str;
  (** Every decimal digit is a digit. *)
  decimal_is_digit : forall c d, to_decimal c = Some d -> is_digit c = true;
  (** In ASCII the decimal digits are '0'..'9'. *)
  ascii_decimal : forall c, is_ascii c ->
    to_decimal c =
    if ((48 <=? c) && (c <=? 57))%N then Some (Z.of_N c - 48)%Z else None;
  (** In ASCII the digits are the decimal digits. *)
  ascii_digit : forall c, is_ascii c ->
    is_digit c = ((48 <=? c) && (c <=? 57))%N;
  (** On ASCII text [lower] maps 'A'..'Z' to 'a'..'z'. *)
  ascii_lower : forall s, Forall is_ascii s ->
    str_lower s = map ascii_lower_char s;
  (** SUPERSCRIPT TWO (U+00B2) is a digit that is not a decimal digit. *)
  superscript_two : is_digit 0xB2%N = true /\ to_decimal 0xB2%N = None
}.

(** The database restricted to U+0000..U+00FF (the digits there are
    '0'..'9' and the superscripts one, two, three; the cased letters are
    'A'..'Z' and U+00C0..U+00DE but the multiplication sign); code points
    above are taken as caseless non-digits. *)
Definition latin1_to_decimal (c : N) : option Z :=
  if ((48 <=? c) && (c <=? 57))%N then Some (Z.of_N c - 48)%Z else None.

Definition latin1_is_digit (c : N) : bool :=
  ((48 <=? c) && (c <=? 57) || (c =? 0xB2) || (c =? 0xB3) || (c =? 0xB9))%N.

Definition latin1_lower_char (c : N) : N :=
  if ((65 <=? c) && (c <=? 90))%N then (c + 32)%N
  else if ((0xC0 <=? c) && (c <=? 0xDE) && negb (c =? 0xD7))%N then (c + 32)%N
  else c.

(** ** [natural_sort_key] *)

Section NaturalSort.
Context {U : Unicode}.

Definition is_decimal (c : N) : bool :=
  match to_decimal c with Some _ => true | None => false end.

(** [re.split('(\d+)', s)]: the text before the first run of decimal
    digits, that run, the text up to the next run, ..., the text after the
    last run.  Runs are maximal; the texts may be empty. *)
Fixpoint re_split_digits (s : str) : list str :=
  match s with
  | [] => [[]]
  | c :: s' =>
      match re_split_digits s' with
      | [] => [[c]]
      | text :: rest =>
          if is_decimal c then
            match text, rest with
            | [], run :: rest' => [] :: (c :: run) :: rest'
            | _, _ => [] :: [c] :: text :: rest
            end
          else (c :: text) :: rest
      end
  end.

(** [text.isdigit()]: non-empty, and every character is a digit. *)
Definition isdigit (text : str) : bool :=
  match text with
  | [] => false
  | _ => forallb is_digit text
  end.

Definition invalid_literal (text : str) : exn :=
  Exn ValueError
      (u "invalid literal for int() with base 10: '" ++ text ++ u "'").

(** [int(text)] on a text of digits: the decimal value, [ValueError] on a
    character that is not a decimal digit. *)
Fixpoint int_digits (acc : Z) (text : str) : option Z :=
  match text with
  | [] => Some acc
  | c :: text' =>
      match to_decimal c with
      | Some d => int_digits (acc * 10 + d) text'
      | None => None
      end
  end.

Definition int_of_str (text : str) : result Z :=
  match text with
  | [] => Raise (invalid_literal text)
  | _ => match int_digits 0 text with
         | Some n => Ret n
         | None => Raise (invalid_literal text)
         end
  end.

(** An element of a sort key: an [int] or a [str]. *)
Inductive key_elem :=
| KInt (n : Z)
| KStr (s : str).

Definition pykey := list key_elem.

Definition key_of_text (text : str) : result key_elem :=
  if isdigit text then (n <- int_of_str text ;; Ret (KInt n))%result
  else Ret (KStr (str_lower text)).

(** [natural_sort_key(s)]. *)
Definition natural_sort_key (s : str) : result pykey :=
  rmap key_of_text (re_split_digits s).

End NaturalSort.

(** ** Comparing keys and [sorted] *)

(** [x == y] on key elements: an [int] never equals a [str]. *)
Definition elem_eqb (x y : key_elem) : bool :=
  match x, y with
  | KInt a, KInt b => (a =? b)%Z
  | KStr a, KStr b => str_eqb a b
  | _, _ => false
  end.

Definition not_supported : exn :=
  Exn TypeError (u "'<' not supported between instances of 'int' and 'str'").

(** [x < y] on key elements. *)
Definition elem_lt (x y : key_elem) : result bool :=
  match x, y with
  | KInt a, KInt b => Ret (a <? b)%Z
  | KStr a, KStr b => Ret (str_ltb a b)
  | _, _ => Raise not_supported
  end.

(** [a < b] on lists: the first position where the elements are not equal
    decides; when there is none, the shorter list is the smaller. *)
Fixpoint key_lt (a b : pykey) : result bool :=
  match a, b with
  | _, [] => Ret false
  | [], _ :: _ => Ret true
  | x :: a', y :: b' => if elem_eqb x y then key_lt a' b' else elem_lt x y
  end.

Section Sorted.
Variable A : Type.

(** One step of the insertion sort: [x] goes before the first element
    whose key is greater than its own, so after the ones it ties with. *)
Fixpoint insert_by_key (x : pykey * A) (l : list (pykey * A))
  : result (list (pykey * A)) :=
  match l with
  | [] => Ret [x]
  | y :: l' =>
      (b <- key_lt (fst x) (fst y) ;;
       if b then Ret (x :: y :: l')
       else (r <- insert_by_key x l' ;; Ret (y :: r)))%result
  end.

Fixpoint sort_keyed (done : list (pykey * A)) (todo : list (pykey * A))
  : result (list (pykey * A)) :=
  match todo with
  | [] => Ret done
  | x :: todo' => (d <- insert_by_key x done ;; sort_keyed d todo')%result
  end.

(** [sorted(l, key=key)]: the keys are computed first, for every element
    in order; then the elements are sorted by key with [<] alone, stably.
    The sort of CPython makes other comparisons than this insertion sort;
    where [<] never raises and is a total order on the keys, as on the keys
    [natural_sort_key] returns, a stable sort has one result. *)
Definition sorted (key : A -> result pykey) (l : list A) : result (list A) :=
  (keyed <- rmap (fun x => k <- key x ;; Ret (k, x)) l ;;
   s <- sort_keyed [] keyed ;;
   Ret (map snd s))%result.

End Sorted.

(** ** Numbers

    [width] and [height] are floats, the pixel dimensions are ints, and
    [scale] is a float or, once clamped, the int [1]. *)

Inductive number :=
| Int (z : Z)
| Float (f : float).

Definition too_large : exn :=
  Exn OverflowError (u "int too large to convert to float").

Definition division_by_zero : exn :=
  Exn ZeroDivisionError (u "float division by zero").

(** The conversion of an [int] operand to [float]: the nearest float, and
    [OverflowError] beyond the range of floats.  Below 2^63 the primitive
    conversion gives it. *)
Definition float_of_int (z : Z) : result float :=
  if ((0 <=? z) && (z <? 9223372036854775808))%Z
  then Ret (of_uint63 (of_Z z))
  else
    let f := SF2Prim (binary_normalize prec emax z 0 false) in
    if is_infinity f then Raise too_large else Ret f.

(** [a - x] for a float [a]. *)
Definition float_sub (a : float) (x : number) : result float :=
  match x with
  | Int k => (b <- float_of_int k ;; Ret (a - b)%float)%result
  | Float f => Ret (a - f)%float
  end.

(** [a / n] for a float [a] and an int [n]: [n] is converted, and a zero
    divisor raises ([float(n)] is zero exactly when [n] is). *)
Definition float_truediv_int (a : float) (n : Z) : result float :=
  (b <- float_of_int n ;;
   if (n =? 0)%Z then Raise division_by_zero else Ret (a / b)%float)%result.

(** [n * x] for an int [n]. *)
Definition int_mul (n : Z) (x : number) : result number :=
  match x with
  | Int k => Ret (Int (n * k))
  | Float f => (a <- float_of_int n ;; Ret (Float (a * f)%float))%result
  end.

(** [min(a, b)] on floats: [b] when [b < a], else [a]. *)
Definition py_min (a b : float) : float :=
  if PrimFloat.ltb b a then b else a.

(** ** Page sizes: reportlab's [lib.units] and [lib.pagesizes] *)

#[local] Set Warnings "-inexact-float".
Definition inch : float := 72.
Definition cm : float := inch / 2.54.
Definition mm : float := cm * 0.1.
Definition letter : float * float := ((8.5 * inch)%float, (11 * inch)%float).
Definition A4 : float * float := ((210 * mm)%float, (297 * mm)%float).
#[local] Set Warnings "+inexact-float".

(** ** Placing an image on a page (the arithmetic of the loop body) *)

(** Where and how large [drawImage] is asked to draw. *)
Record placement := {
  pl_x : float;
  pl_y : float;
  pl_width : number;
  pl_height : number
}.

Definition margin : Z := 20.

(** [scale = min(...)] followed by [if scale > 1: scale = 1]. *)
Definition clamp_scale (scale : float) : number :=
  if PrimFloat.ltb 1 scale then Int 1 else Float scale.

Definition place_image (width height : float) (img_width img_height : Z)
  : result placement :=
  (max_img_width <- float_sub width (Int (2 * margin)) ;;
   max_img_height <- float_sub height (Int (2 * margin)) ;;
   rw <- float_truediv_int max_img_width img_width ;;
   rh <- float_truediv_int max_img_height img_height ;;
   let scale := clamp_scale (py_min rw rh) in
   new_width <- int_mul img_width scale ;;
   new_height <- int_mul img_height scale ;;
   dx <- float_sub width new_width ;;
   x <- float_truediv_int dx 2 ;;
   dy <- float_sub height new_height ;;
   y <- float_truediv_int dy 2 ;;
   Ret {| pl_x := x; pl_y := y;
          pl_width := new_width; pl_height := new_height |})%result.

(** ** The world and the state of a run *)

(** An entry of a directory: [os.listdir] returns the names only. *)
Record dirent := { d_name : str; d_isdir : bool }.

(** What the operating system, PIL and reportlab answer during a run. *)
Record world := {
  os_path_dirname : str -> str;
  os_path_exists : str -> bool;
  os_makedirs : str -> result unit;
  os_path_join : str -> str -> str;
  (** The entries of a directory, in the order [os.listdir] gives them. *)
  os_listdir : str -> result (list dirent);
  (** [canvas.Canvas(filename, pagesize=...)]. *)
  canvas_Canvas : str -> result unit;
  (** [ImageReader(path).getSize()]: the pixel dimensions, or the failure
      to open or decode. *)
  image_getSize : str -> result (Z * Z);
  (** Whether [drawImage] of that image succeeds; a failed [drawImage]
      leaves nothing on the page. *)
  canvas_drawImage : str -> result unit;
  (** Whether [save] can write the file at that path. *)
  canvas_save : str -> result unit
}.

(** One image drawn on a page. *)
Record drawing := { dr_image : str; dr_place : placement }.

Definition page := list drawing.

(** A reportlab canvas: the page being drawn and the pages finished by
    [showPage]. *)
Record canvas := {
  cv_filename : str;
  cv_pagesize : float * float;
  cv_code : page;
  cv_pages : list page
}.

(** A message box of the window. *)
Inductive dialog :=
| ShowInfo (title message : str)
| ShowError (title message : str).

Record state := {
  (** The messages [progress_callback] was called with, oldest first. *)
  st_events : list str;
  (** The directories made by [os.makedirs]. *)
  st_made_dirs : list str;
  (** The canvas [c], once created. *)
  st_canvas : option canvas;
  (** The files written by [save]: path and pages. *)
  st_files : list (str * list page);
  (** The message boxes shown, oldest first. *)
  st_dialogs : list dialog;
  (** Whether the start button is enabled. *)
  st_button : bool
}.

Definition init_state : state :=
  {| st_events := []; st_made_dirs := []; st_canvas := None;
     st_files := []; st_dialogs := []; st_button := true |}.

(** Code with effects: from a state to a result and the state after. *)
Definition M (A : Type) := state -> result A * state.

Definition ret {A} (a : A) : M A := fun s => (Ret a, s).

Definition bind {A B} (m : M A) (k : A -> M B) : M B :=
  fun s =>
    match m s with
    | (Ret a, s') => k a s'
    | (Raise e, s') => (Raise e, s')
    end.

Definition lift {A} (r : result A) : M A := fun s => (r, s).

(** [try: body except Exception as e: handler(e)]. *)
Definition try_except {A} (body : M A) (handler : exn -> M A) : M A :=
  fun s =>
    match body s with
    | (Ret a, s') => (Ret a, s')
    | (Raise e, s') => handler e s'
    end.

(** [try: body finally: cleanup]. *)
Definition try_finally {A} (body : M A) (cleanup : M unit) : M A :=
  fun s =>
    match body s with
    | (r, s') =>
        match cleanup s' with
        | (Ret _, s'') => (r, s'')
        | (Raise e, s'') => (Raise e, s'')
        end
    end.

Declare Scope monad_scope.
Delimit Scope monad_scope with M.
Notation "x <- m ;; k" := (bind m (fun x => k))
  (at level 61, m at next level, right associativity) : monad_scope.
Notation "m ;; k" := (bind m (fun _ => k))
  (at level 61, right associativity) : monad_scope.

Definition set_events (s : state) (ev : list str) : state :=
  {| st_events := ev; st_made_dirs := st_made_dirs s;
     st_canvas := st_canvas s; st_files := st_files s;
     st_dialogs := st_dialogs s; st_button := st_button s |}.

Definition set_made_dirs (s : state) (d : list str) : state :=
  {| st_events := st_events s; st_made_dirs := d;
     st_canvas := st_canvas s; st_files := st_files s;
     st_dialogs := st_dialogs s; st_button := st_button s |}.

Definition set_canvas (s : state) (c : option canvas) : state :=
  {| st_events := st_events s; st_made_dirs := st_made_dirs s;
     st_canvas := c; st_files := st_files s;
     st_dialogs := st_dialogs s; st_button := st_button s |}.

Definition set_files (s : state) (f : list (str * list page)) : state :=
  {| st_events := st_events s; st_made_dirs := st_made_dirs s;
     st_canvas := st_canvas s; st_files := f;
     st_dialogs := st_dialogs s; st_button := st_button s |}.

Definition set_dialogs (s : state) (d : list dialog) : state :=
  {| st_events := st_events s; st_made_dirs := st_made_dirs s;
     st_canvas := st_canvas s; st_files := st_files s;
     st_dialogs := d; st_button := st_button s |}.

Definition set_button (s : state) (b : bool) : state :=
  {| st_events := st_events s; st_made_dirs := st_made_dirs s;
     st_canvas := st_canvas s; st_files := st_files s;
     st_dialogs := st_dialogs s; st_button := b |}.

(** A progress callback: called with a message, it returns or raises. *)
Definition callback := str -> result unit.

(** [if progress_callback: progress_callback(msg)]. *)
Definition emit (progress_callback : option callback) (msg : str) : M unit :=
  match progress_callback with
  | None => ret tt
  | Some f => fun s => (f msg, set_events s (st_events s ++ [msg]))
  end.

(** ** The canvas *)

Definition makedirs (W : world) (path : str) : M unit :=
  fun s =>
    match os_makedirs W path with
    | Ret _ => (Ret tt, set_made_dirs s (st_made_dirs s ++ [path]))
    | Raise e => (Raise e, s)
    end.

(** [c = canvas.Canvas(filename, pagesize=pagesize)]. *)
Definition new_canvas (W : world) (filename : str) (pagesize : float * float)
  : M unit :=
  fun s =>
    match canvas_Canvas W filename with
    | Ret _ =>
        (Ret tt,
         set_canvas s (Some {| cv_filename := filename;
                               cv_pagesize := pagesize;
                               cv_code := []; cv_pages := [] |}))
    | Raise e => (Raise e, s)
    end.

Definition canvas_add (c : canvas) (d : drawing) : canvas :=
  {| cv_filename := cv_filename c; cv_pagesize := cv_pagesize c;
     cv_code := cv_code c ++ [d]; cv_pages := cv_pages c |}.

Definition canvas_show (c : canvas) : canvas :=
  {| cv_filename := cv_filename c; cv_pagesize := cv_pagesize c;
     cv_code := []; cv_pages := cv_pages c ++ [cv_code c] |}.

(** [c.drawImage(img_reader, x, y, width=new_width, height=new_height)]. *)
Definition drawImage (W : world) (image_path : str) (p : placement) : M unit :=
  fun s =>
    match canvas_drawImage W image_path with
    | Ret _ =>
        (Ret tt,
         set_canvas s
           (option_map
              (fun c => canvas_add c {| dr_image := image_path;
                                        dr_place := p |})
              (st_canvas s)))
    | Raise e => (Raise e, s)
    end.

(** [c.showPage()]: the page drawn so far is finished. *)
Definition showPage : M unit :=
  fun s => (Ret tt, set_canvas s (option_map canvas_show (st_canvas s))).

(** The pages [save] writes: the finished ones, and the page being drawn
    when something is on it. *)
Definition canvas_document (c : canvas) : list page :=
  match cv_code c with
  | [] => cv_pages c
  | _ :: _ => cv_pages c ++ [cv_code c]
  end.

(** [c.save()]. *)
Definition save (W : world) : M unit :=
  fun s =>
    match st_canvas s with
    | None => (Ret tt, s)
    | Some c =>
        match canvas_save W (cv_filename c) with
        | Ret _ =>
            (Ret tt,
             set_files s (st_files s ++ [(cv_filename c, canvas_document c)]))
        | Raise e => (Raise e, s)
        end
    end.

(** ** [convert_images_to_pdf] *)

(** The [page_size] argument: a string, or a tuple such as the default
    [letter], which has no [lower]. *)
Inductive page_size_arg :=
| PageSizeStr (s : str)
| PageSizeTuple (p : float * float).

Definition no_lower : exn :=
  Exn AttributeError (u "'tuple' object has no attribute 'lower'").

Definition image_extensions : list str :=
  [u ".png"; u ".jpg"; u ".jpeg"; u ".gif"; u ".bmp"; u ".tiff"].

Definition msg_no_images : str := u "错误：未找到图片文件".

Definition msg_processing (i total : nat) (filename : str) : str :=
  u "正在处理 (" ++ str_of_nat (i + 1) ++ u "/" ++ str_of_nat total
    ++ u ")：" ++ filename.

Definition msg_warning (filename : str) (e : exn) : str :=
  u "警告：处理 " ++ filename ++ u " 失败 - " ++ exn_str e.

Definition msg_success (output_pdf : str) : str :=
  u "成功！PDF已保存至：" ++ output_pdf.

Definition msg_failed (e : exn) : str := u "转换失败：" ++ exn_str e.

Section Pipeline.
Context {U : Unicode}.

(** [page_size.lower()]. *)
Definition page_size_lower (page_size : page_size_arg) : result str :=
  match page_size with
  | PageSizeStr s => Ret (str_lower s)
  | PageSizeTuple _ => Raise no_lower
  end.

(** Lines 31-34: the page dimensions of the run. *)
Definition select_pagesize (page_size : page_size_arg)
  : result (float * float) :=
  (l <- page_size_lower page_size ;;
   Ret (if str_eqb l (u "a4") then A4 else letter))%result.

(** The names kept by the comprehension of line 45. *)
Definition retained (names : list str) : list str :=
  filter (fun f => endswith (str_lower f) image_extensions) names.

(** Lines 44-47: [image_files]. *)
Definition list_images (names : list str) : result (list str) :=
  sorted natural_sort_key (retained names).

(** The [try] body of lines 61-79, for one file. *)
Definition draw_page (W : world) (width height : float) (image_path : str)
  : M unit :=
  (size <- lift (image_getSize W image_path) ;;
   p <- lift (place_image width height (fst size) (snd size)) ;;
   drawImage W image_path p ;;
   showPage)%M.

(** The loop of lines 55-83, from index [i] on. *)
Fixpoint process_files (W : world) (image_folder : str)
    (width height : float) (progress_callback : option callback)
    (total i : nat) (files : list str) : M unit :=
  match files with
  | [] => ret tt
  | filename :: files' =>
      let image_path := os_path_join W image_folder filename in
      (emit progress_callback (msg_processing i total filename) ;;
       try_except
         (draw_page W width height image_path)
         (fun e => emit progress_callback (msg_warning filename e)) ;;
       process_files W image_folder width height progress_callback
         total (S i) files')%M
  end.

Definition convert_images_to_pdf (W : world) (image_folder output_pdf : str)
    (page_size : page_size_arg) (progress_callback : option callback)
  : M unit :=
  try_except
    (let output_dir := os_path_dirname W output_pdf in
     (if negb (str_eqb output_dir []) && negb (os_path_exists W output_dir)
      then makedirs W output_dir else ret tt) ;;
     pagesize <- lift (select_pagesize page_size) ;;
     new_canvas W output_pdf pagesize ;;
     entries <- lift (os_listdir W image_folder) ;;
     image_files <- lift (list_images (map d_name entries)) ;;
     let total := length image_files in
     if (total =? 0)%nat then emit progress_callback msg_no_images
     else
       (process_files W image_folder (fst pagesize) (snd pagesize)
          progress_callback total 0 image_files ;;
        save W ;;
        emit progress_callback (msg_success output_pdf)))%M
    (fun e => emit progress_callback (msg_failed e)).

(** ** [ImageToPdfApp.start_conversion] *)

Definition showinfo (title message : str) : M unit :=
  fun s => (Ret tt, set_dialogs s (st_dialogs s ++ [ShowInfo title message])).

Definition showerror (title message : str) : M unit :=
  fun s => (Ret tt, set_dialogs s (st_dialogs s ++ [ShowError title message])).

Definition button_config (enabled : bool) : M unit :=
  fun s => (Ret tt, set_button s enabled).

(** [self.update_progress]: it sets the text of the progress label, which
    is the latest of [st_events]. *)
Definition update_progress : callback := fun _ => Ret tt.

(** [start_conversion], with the values of the three form fields.  The
    texts it and [update_progress] put on the progress label are not part
    of the state. *)
Definition start_conversion (W : world)
    (image_folder output_pdf page_size : str) : M unit :=
  if str_eqb image_folder [] then
    showerror (u "错误") (u "请选择图片文件夹！")
  else if str_eqb output_pdf [] then
    showerror (u "错误") (u "请选择PDF保存路径！")
  else
    (button_config false ;;
     try_finally
       (try_except
          (convert_images_to_pdf W image_folder output_pdf
             (PageSizeStr page_size) (Some update_progress) ;;
           showinfo (u "成功") (u "PDF已生成：" ++ [10%N] ++ output_pdf))
          (fun e => showerror (u "错误") (u "转换失败：" ++ exn_str e)))
       (button_config true))%M.

End Pipeline.

(** ** The order on keys, as a total order

    [key_ltb] agrees with [key_lt] wherever [key_lt] returns, and orders an
    [int] before a [str] where [key_lt] raises; it is a strict total order
    on all keys, which is what the facts about the sort are proved from. *)

Definition elem_ltb (x y : key_elem) : bool :=
  match x, y with
  | KInt a, KInt b => (a <? b)%Z
  | KStr a, KStr b => str_ltb a b
  | KInt _, KStr _ => true
  | KStr _, KInt _ => false
  end.

Fixpoint key_ltb (a b : pykey) : bool :=
  match a, b with
  | _, [] => false
  | [], _ :: _ => true
  | x :: a', y :: b' => if elem_eqb x y then key_ltb a' b' else elem_ltb x y
  end.

(** The shape of a key: a [str] at the even positions and an [int] at the
    odd ones ([expect_str] tells which the first position holds). *)
Fixpoint alternates (expect_str : bool) (k : pykey) : bool :=
  match k with
  | [] => true
  | KStr _ :: k' => expect_str && alternates false k'
  | KInt _ :: k' => negb expect_str && alternates true k'
  end.

(** Two keys compare equal: neither is smaller than the other. *)
Definition compare_equal (a b : pykey) : Prop :=
  key_lt a b = Ret false /\ key_lt b a = Ret false.

Section PureSort.
Variable A : Type.

Fixpoint insert_pure (x : pykey * A) (l : list (pykey * A))
  : list (pykey * A) :=
  match l with
  | [] => [x]
  | y :: l' =>
      if key_ltb (fst x) (fst y) then x :: y :: l' else y :: insert_pure x l'
  end.

Fixpoint sort_pure (done todo : list (pykey * A)) : list (pykey * A) :=
  match todo with
  | [] => done
  | x :: todo' => sort_pure (insert_pure x done) todo'
  end.

(** No later element has a smaller key. *)
Definition key_sorted (l : list (pykey * A)) : Prop :=
  StronglySorted (fun p q => key_ltb (fst q) (fst p) = false) l.

End PureSort.

(** * Properties *)

Unset Implicit Arguments.

(** ** Strings and keys *)

Lemma str_eqb_eq (a b : str) : str_eqb a b = true <-> a = b.
Proof.
  unfold str_eqb. destruct (list_eq_dec N.eq_dec a b); split; congruence.
Qed.

Lemma str_eqb_refl (a : str) : str_eqb a a = true.
Proof. now apply str_eqb_eq. Qed.

Lemma str_ltb_irrefl (a : str) : str_ltb a a = false.
Proof.
  induction a as [|x a IH]; simpl; [reflexivity|].
  now rewrite N.ltb_irrefl, N.eqb_refl.
Qed.

Lemma str_ltb_trans (a b c : str) :
  str_ltb a b = true -> str_ltb b c = true -> str_ltb a c = true.
Proof.
  revert b c. induction a as [|x a IH]; intros [|y b] [|z c]; simpl;
    try congruence.
  destruct (N.ltb_spec x y), (N.ltb_spec y z), (N.ltb_spec x z);
    try reflexivity; try lia;
    destruct (N.eqb_spec x y), (N.eqb_spec y z), (N.eqb_spec x z);
    try congruence; try lia.
  apply IH.
Qed.

Lemma str_ltb_total (a b : str) :
  str_ltb a b = false -> str_ltb b a = false -> a = b.
Proof.
  revert b. induction a as [|x a IH]; intros [|y b]; simpl;
    try congruence.
  destruct (N.ltb_spec x y), (N.ltb_spec y x); try congruence; try lia.
  assert (x = y) by lia. subst y. rewrite N.eqb_refl.
  intros H1 H2. f_equal. now apply IH.
Qed.

Lemma elem_eqb_eq (x y : key_elem) : elem_eqb x y = true <-> x = y.
Proof.
  destruct x as [a|a], y as [b|b]; simpl; split; try congruence.
  - intros H. apply Z.eqb_eq in H. congruence.
  - intros H. injection H as ->. apply Z.eqb_refl.
  - intros H. apply str_eqb_eq in H. congruence.
  - intros H. injection H as ->. apply str_eqb_refl.
Qed.

Lemma elem_eqb_refl (x : key_elem) : elem_eqb x x = true.
Proof. now apply elem_eqb_eq. Qed.

Lemma elem_ltb_irrefl (x : key_elem) : elem_ltb x x = false.
Proof.
  destruct x; simpl; [apply Z.ltb_irrefl | apply str_ltb_irrefl].
Qed.

Lemma elem_ltb_trans (x y z : key_elem) :
  elem_ltb x y = true -> elem_ltb y z = true -> elem_ltb x z = true.
Proof.
  destruct x, y, z; simpl; try congruence.
  - rewrite !Z.ltb_lt. lia.
  - apply str_ltb_trans.
Qed.

Lemma elem_ltb_total (x y : key_elem) :
  elem_ltb x y = false -> elem_ltb y x = false -> x = y.
Proof.
  destruct x, y; simpl; try congruence.
  - rewrite !Z.ltb_ge. intros. f_equal. lia.
  - intros. f_equal. now apply str_ltb_total.
Qed.

Lemma key_ltb_irrefl (a : pykey) : key_ltb a a = false.
Proof.
  induction a as [|x a IH]; simpl; [reflexivity|].
  now rewrite elem_eqb_refl.
Qed.

Lemma key_ltb_trans (a b c : pykey) :
  key_ltb a b = true -> key_ltb b c = true -> key_ltb a c = true.
Proof.
  revert b c. induction a as [|x a IH]; intros [|y b] [|z c]; simpl;
    try congruence.
  destruct (elem_eqb x y) eqn:Exy.
  - apply elem_eqb_eq in Exy. subst y.
    destruct (elem_eqb x z); [apply IH | congruence].
  - destruct (elem_eqb y z) eqn:Eyz.
    + apply elem_eqb_eq in Eyz. subst z. rewrite Exy. congruence.
    + intros Hxy Hyz. destruct (elem_eqb x z) eqn:Exz.
      * apply elem_eqb_eq in Exz. subst z.
        pose proof (elem_ltb_trans _ _ _ Hxy Hyz) as H.
        rewrite elem_ltb_irrefl in H. discriminate.
      * eapply elem_ltb_trans; eassumption.
Qed.

Lemma key_ltb_total (a b : pykey) :
  key_ltb a b = false -> key_ltb b a = false -> a = b.
Proof.
  revert b. induction a as [|x a IH]; intros [|y b]; simpl;
    try congruence.
  destruct (elem_eqb x y) eqn:Exy.
  - apply elem_eqb_eq in Exy. subst y. rewrite elem_eqb_refl.
    intros. f_equal. now apply IH.
  - destruct (elem_eqb y x) eqn:Eyx.
    + apply elem_eqb_eq in Eyx. subst y. rewrite elem_eqb_refl in Exy.
      discriminate.
    + intros H1 H2. pose proof (elem_ltb_total _ _ H1 H2) as ->.
      rewrite elem_eqb_refl in Exy. discriminate.
Qed.

Lemma key_ltb_asym (a b : pykey) :
  key_ltb a b = true -> key_ltb b a = false.
Proof.
  intros H. destruct (key_ltb b a) eqn:E; [|reflexivity].
  pose proof (key_ltb_trans _ _ _ H E) as H'.
  rewrite key_ltb_irrefl in H'. discriminate.
Qed.

(** [a <= b] and [b <= c] give [a <= c], with [x <= y] read as "not
    [y < x]". *)
Lemma key_le_trans (a b c : pykey) :
  key_ltb b a = false -> key_ltb c b = false -> key_ltb c a = false.
Proof.
  intros Hab Hbc. destruct (key_ltb c a) eqn:Hca; [|reflexivity].
  destruct (key_ltb a b) eqn:Eab.
  - pose proof (key_ltb_trans _ _ _ Hca Eab). congruence.
  - pose proof (key_ltb_total _ _ Eab Hab). subst b. congruence.
Qed.

Lemma key_lt_le_trans (a b c : pykey) :
  key_ltb a b = true -> key_ltb c b = false -> key_ltb a c = true.
Proof.
  intros Hab Hbc. destruct (key_ltb b c) eqn:E.
  - eapply key_ltb_trans; eassumption.
  - pose proof (key_ltb_total _ _ E Hbc). now subst c.
Qed.

(** On keys of one shape [<] never raises, and is [key_ltb]. *)
Lemma key_lt_alternates (a b : pykey) (e : bool) :
  alternates e a = true -> alternates e b = true ->
  key_lt a b = Ret (key_ltb a b).
Proof.
  revert b e. induction a as [|x a IH]; intros [|y b] e Ha Hb; simpl;
    try reflexivity.
  destruct x, y, e; simpl in *; try discriminate;
    match goal with
    | |- (if ?c then _ else _) = _ => destruct c; [eauto | reflexivity]
    end.
Qed.

Lemma compare_equal_alternates (a b : pykey) (e : bool) :
  alternates e a = true -> alternates e b = true ->
  compare_equal a b <-> a = b.
Proof.
  intros Ha Hb. unfold compare_equal.
  rewrite (key_lt_alternates _ _ _ Ha Hb), (key_lt_alternates _ _ _ Hb Ha).
  split.
  - intros [H1 H2]. apply key_ltb_total; congruence.
  - intros ->. now rewrite key_ltb_irrefl.
Qed.

(** ** [re.split] and the shape of a key *)

Section KeyShape.
Context {U : Unicode}.

(** The pieces [re.split] returns: texts without a decimal digit and
    non-empty runs of decimal digits, alternating, a text first and last. *)
Fixpoint pieces_ok (is_text : bool) (ps : list str) : Prop :=
  match ps with
  | [] => is_text = false
  | p :: ps' =>
      (if is_text then forallb (fun c => negb (is_decimal c)) p = true
       else p <> [] /\ forallb is_decimal p = true)
      /\ pieces_ok (negb is_text) ps'
  end.

Lemma re_split_digits_shape (s : str) : pieces_ok true (re_split_digits s).
Proof.
  induction s as [|c s IH]; simpl; [now auto|].
  destruct (re_split_digits s) as [|text rest]; [simpl in IH; discriminate|].
  destruct IH as [Ht Hr]. destruct (is_decimal c) eqn:Ec.
  - destruct text as [|t text].
    + destruct rest as [|run rest'].
      * simpl. repeat split; auto; try congruence. now rewrite Ec.
      * destruct Hr as [[Hne Hrun] Hr]. simpl. repeat split; auto;
          try congruence. now rewrite Ec, Hrun.
    + simpl. repeat split; auto; try congruence. now rewrite Ec.
  - simpl. rewrite Ec. simpl. auto.
Qed.

(** The pieces are the string, cut. *)
Lemma re_split_digits_concat (s : str) : concat (re_split_digits s) = s.
Proof.
  induction s as [|c s IH]; simpl; [reflexivity|].
  destruct (re_split_digits s) as [|text rest]; [simpl in IH; now subst|].
  destruct (is_decimal c).
  - destruct text as [|t text].
    + destruct rest as [|run rest']; simpl in *; now rewrite IH.
    + simpl in *. now rewrite IH.
  - simpl in *. now rewrite IH.
Qed.

Lemma int_digits_decimal (text : str) (acc : Z) :
  forallb is_decimal text = true -> exists n, int_digits acc text = Some n.
Proof.
  revert acc. induction text as [|c text IH]; intros acc H; simpl.
  - now exists acc.
  - simpl in H. apply andb_prop in H as [Hc Ht]. unfold is_decimal in Hc.
    destruct (to_decimal c); [now apply IH | discriminate].
Qed.

Lemma isdigit_decimal (text : str) :
  text <> [] -> forallb is_decimal text = true -> isdigit text = true.
Proof.
  intros Hne H. destruct text as [|c text]; [congruence|].
  unfold isdigit. apply forallb_forall. intros x Hx.
  rewrite forallb_forall in H. specialize (H x Hx). unfold is_decimal in H.
  destruct (to_decimal x) eqn:E; [|discriminate].
  eapply decimal_is_digit; eassumption.
Qed.

(** A run of decimal digits becomes an [int]. *)
Lemma key_of_text_run (p : str) :
  p <> [] -> forallb is_decimal p = true ->
  exists n, int_digits 0 p = Some n /\ key_of_text p = Ret (KInt n).
Proof.
  intros Hne H. unfold key_of_text. rewrite (isdigit_decimal p Hne H).
  destruct (int_digits_decimal p 0%Z H) as [n Hn].
  exists n. split; [exact Hn|].
  unfold int_of_str. destruct p; [congruence|]. now rewrite Hn.
Qed.

(** A text without a decimal digit becomes a [str], when it becomes
    anything. *)
Lemma key_of_text_text (p : str) (k : key_elem) :
  forallb (fun c => negb (is_decimal c)) p = true ->
  key_of_text p = Ret k -> k = KStr (str_lower p).
Proof.
  intros H. unfold key_of_text. destruct (isdigit p) eqn:E.
  - destruct p as [|c p]; [discriminate|].
    simpl in H. apply andb_prop in H as [Hc _]. unfold is_decimal in Hc.
    unfold int_of_str. simpl. destruct (to_decimal c); [discriminate|].
    simpl. discriminate.
  - now intros [= <-].
Qed.

Lemma rmap_key_alternates (ps : list str) (b : bool) (k : pykey) :
  pieces_ok b ps -> rmap key_of_text ps = Ret k -> alternates b k = true.
Proof.
  revert b k. induction ps as [|p ps IH]; intros b k Hok; simpl.
  - intros [= <-]. reflexivity.
  - destruct Hok as [Hp Hps].
    destruct (key_of_text p) as [x|] eqn:Ex; simpl; [|discriminate].
    destruct (rmap key_of_text ps) as [k'|] eqn:Ek; simpl; [|discriminate].
    intros [= <-]. specialize (IH _ _ Hps eq_refl).
    destruct b.
    + rewrite (key_of_text_text _ _ Hp Ex). simpl. exact IH.
    + destruct Hp as [Hne Hp].
      destruct (key_of_text_run _ Hne Hp) as [n [_ Hn]].
      rewrite Hn in Ex. injection Ex as <-. simpl. exact IH.
Qed.




(** Every key [natural_sort_key] returns has a [str] at its even positions
    and an [int] at its odd ones. *)
Lemma natural_sort_key_alternates (s : str) (k : pykey) :
  natural_sort_key s = Ret k -> alternates true k = true.
Proof.
  apply rmap_key_alternates, re_split_digits_shape.
Qed.

End KeyShape.

(** ** The insertion sort *)

Section SortFacts.
Variable A : Type.
Implicit Types (x : pykey * A) (l : list (pykey * A)).

Lemma insert_by_key_pure x l :
  alternates true (fst x) = true ->
  Forall (fun p => alternates true (fst p) = true) l ->
  insert_by_key x l = Ret (insert_pure x l).
Proof.
  intros Hx Hl. induction Hl as [|y l Hy Hl IH]; simpl; [reflexivity|].
  rewrite (key_lt_alternates _ _ _ Hx Hy). simpl.
  destruct (key_ltb (fst x) (fst y)); [reflexivity|].
  now rewrite IH.
Qed.

Lemma insert_pure_perm x l : Permutation (insert_pure x l) (x :: l).
Proof.
  induction l as [|y l IH]; simpl; [reflexivity|].
  destruct (key_ltb (fst x) (fst y)); [reflexivity|].
  rewrite IH. apply perm_swap.
Qed.

Lemma insert_pure_Forall (P : pykey * A -> Prop) x l :
  P x -> Forall P l -> Forall P (insert_pure x l).
Proof.
  intros Hx Hl. eapply Permutation_Forall.
  - symmetry. apply insert_pure_perm.
  - now constructor.
Qed.

Lemma sort_keyed_pure (done todo : list (pykey * A)) :
  Forall (fun p => alternates true (fst p) = true) done ->
  Forall (fun p => alternates true (fst p) = true) todo ->
  sort_keyed done todo = Ret (sort_pure done todo).
Proof.
  intros Hd Ht. revert done Hd.
  induction Ht as [|x todo Hx Ht IH]; intros done Hd; simpl; [reflexivity|].
  rewrite (insert_by_key_pure _ _ Hx Hd). simpl.
  apply IH. now apply insert_pure_Forall.
Qed.

Lemma sort_pure_perm (done todo : list (pykey * A)) :
  Permutation (sort_pure done todo) (done ++ todo).
Proof.
  revert done. induction todo as [|x todo IH]; intros done; simpl.
  - now rewrite app_nil_r.
  - rewrite IH, insert_pure_perm. apply Permutation_middle.
Qed.

Lemma insert_pure_sorted x l :
  key_sorted l -> key_sorted (insert_pure x l).
Proof.
  unfold key_sorted. intros Hl.
  induction Hl as [|y l Hl IH Hy]; simpl.
  - constructor; constructor.
  - destruct (key_ltb (fst x) (fst y)) eqn:E.
    + constructor; [now constructor|].
      constructor; [now apply key_ltb_asym|].
      eapply Forall_impl; [|exact Hy]. simpl. intros z Hz.
      apply key_ltb_asym. eapply key_lt_le_trans; eassumption.
    + constructor; [exact IH|].
      apply insert_pure_Forall; assumption.
Qed.

Lemma sort_pure_sorted (done todo : list (pykey * A)) :
  key_sorted done -> key_sorted (sort_pure done todo).
Proof.
  revert done. induction todo as [|x todo IH]; intros done Hd; simpl;
    [exact Hd|].
  apply IH, insert_pure_sorted, Hd.
Qed.

(** Stability of one insertion: among the elements of any one key, the
    new element comes last. *)
Lemma insert_pure_stable (k : pykey) x l :
  key_sorted l ->
  filter (fun p => negb (key_ltb (fst p) k) && negb (key_ltb k (fst p)))
         (insert_pure x l)
  = filter (fun p => negb (key_ltb (fst p) k) && negb (key_ltb k (fst p))) l
    ++ filter (fun p => negb (key_ltb (fst p) k) && negb (key_ltb k (fst p)))
         [x].
Proof.
  set (tie := fun p : pykey * A =>
                negb (key_ltb (fst p) k) && negb (key_ltb k (fst p))).
  unfold key_sorted. intros Hl.
  induction Hl as [|y l Hl IH Hy]; [reflexivity|].
  cbn [insert_pure]. destruct (key_ltb (fst x) (fst y)) eqn:E.
  - change (x :: y :: l) with ([x] ++ y :: l). rewrite filter_app.
    destruct (tie x) eqn:Tx.
    + assert (Hnil : filter tie (y :: l) = []).
      { assert (Hall : Forall (fun z => tie z = false) (y :: l)).
        { assert (Hkx : fst x = k).
          { unfold tie in Tx. apply andb_prop in Tx as [T1 T2].
            apply negb_true_iff in T1, T2. now apply key_ltb_total. }
          assert (Hlt : forall z, key_ltb (fst z) (fst y) = false ->
                                  tie z = false).
          { intros z Hz. unfold tie. rewrite <- Hkx.
            rewrite (key_lt_le_trans _ _ _ E Hz). simpl.
            apply andb_false_r. }
          constructor; [apply Hlt, key_ltb_irrefl|].
          eapply Forall_impl; [|exact Hy]. intros z Hz. now apply Hlt. }
        clear -Hall. induction Hall as [|z l' Hz _ IH']; simpl;
          [reflexivity|]. now rewrite Hz. }
      rewrite Hnil. simpl. rewrite Tx. reflexivity.
    + simpl. rewrite Tx. simpl. now rewrite app_nil_r.
  - simpl. destruct (tie y); simpl; now rewrite IH.
Qed.

Lemma sort_pure_stable (k : pykey) (done todo : list (pykey * A)) :
  key_sorted done ->
  filter (fun p => negb (key_ltb (fst p) k) && negb (key_ltb k (fst p)))
         (sort_pure done todo)
  = filter (fun p => negb (key_ltb (fst p) k) && negb (key_ltb k (fst p)))
      (done ++ todo).
Proof.
  revert done. induction todo as [|x todo IH]; intros done Hd; simpl.
  - now rewrite app_nil_r.
  - rewrite IH by now apply insert_pure_sorted.
    rewrite !filter_app, insert_pure_stable by assumption.
    rewrite <- app_assoc. f_equal.
    change (x :: todo) with ([x] ++ todo). now rewrite filter_app.
Qed.

End SortFacts.

(** ** [sorted] with [natural_sort_key] *)

Section SortedNames.
Context {U : Unicode}.

(** The key of a name, for names that have one. *)
Definition key_of (f : str) : pykey :=
  match natural_sort_key f with
  | Ret k => k
  | Raise _ => []
  end.

(** [natural_sort_key] returns a key for that name. *)
Definition has_key (f : str) : Prop := is_ret (natural_sort_key f) = true.

Definition keyed (l : list str) : list (pykey * str) :=
  map (fun f => (key_of f, f)) l.

(** The names that compare equal to [k], as a test. *)
Definition ties (k : pykey) (f : str) : bool :=
  negb (key_ltb (key_of f) k) && negb (key_ltb k (key_of f)).

Lemma has_key_of (f : str) : has_key f -> natural_sort_key f = Ret (key_of f).
Proof.
  unfold has_key, key_of. now destruct (natural_sort_key f).
Qed.

Lemma key_of_alternates (f : str) : alternates true (key_of f) = true.
Proof.
  unfold key_of. destruct (natural_sort_key f) eqn:E; [|reflexivity].
  eapply natural_sort_key_alternates, E.
Qed.

Lemma rmap_keyed (l : list str) :
  Forall has_key l ->
  rmap (fun x => (k <- natural_sort_key x ;; Ret (k, x))%result) l
  = Ret (keyed l).
Proof.
  induction 1 as [|f l Hf Hl IH]; simpl; [reflexivity|].
  now rewrite (has_key_of f Hf), IH.
Qed.

Lemma keyed_alternates (l : list str) :
  Forall (fun p : pykey * str => alternates true (fst p) = true) (keyed l).
Proof.
  unfold keyed. apply Forall_map, Forall_forall. intros f _.
  apply key_of_alternates.
Qed.

(** When every name has a key, [sorted] returns the insertion sort of the
    names by their keys. *)
Lemma sorted_pure (l : list str) :
  Forall has_key l ->
  sorted natural_sort_key l = Ret (map snd (sort_pure [] (keyed l))).
Proof.
  intros H. unfold sorted. rewrite (rmap_keyed l H). simpl.
  rewrite sort_keyed_pure; [reflexivity | constructor | apply keyed_alternates].
Qed.

(** A name without a key makes [sorted] raise. *)
Lemma sorted_raises (l : list str) :
  ~ Forall has_key l -> is_ret (sorted natural_sort_key l) = false.
Proof.
  intros H. unfold sorted.
  assert (E : is_ret (rmap (fun x => (k <- natural_sort_key x ;;
                                      Ret (k, x))%result) l) = false).
  { induction l as [|f l IH]; [exfalso; apply H; constructor|].
    simpl. unfold has_key in *.
    destruct (natural_sort_key f) eqn:Ef; simpl; [|reflexivity].
    destruct (rmap _ l) eqn:El; simpl; [|reflexivity].
    assert (Hl : ~ Forall (fun f => is_ret (natural_sort_key f) = true) l).
    { intros Hl. apply H. constructor; [now rewrite Ef | exact Hl]. }
    specialize (IH Hl). discriminate. }
  destruct (rmap _ l); [discriminate | reflexivity].
Qed.

Lemma sorted_pairs_keyed (l : list str) :
  Forall (fun p : pykey * str => fst p = key_of (snd p))
         (sort_pure [] (keyed l)).
Proof.
  eapply Permutation_Forall.
  - symmetry. apply sort_pure_perm.
  - simpl. unfold keyed. apply Forall_map, Forall_forall. now intros.
Qed.

Lemma sort_names_perm (l : list str) :
  Permutation (map snd (sort_pure [] (keyed l))) l.
Proof.
  rewrite (Permutation_map snd (sort_pure_perm str [] (keyed l))). simpl.
  unfold keyed. rewrite map_map. simpl. now rewrite map_id.
Qed.

Lemma map_snd_sorted (ps : list (pykey * str)) :
  Forall (fun p => fst p = key_of (snd p)) ps ->
  key_sorted ps ->
  StronglySorted (fun f g => key_ltb (key_of g) (key_of f) = false)
                 (map snd ps).
Proof.
  unfold key_sorted. intros Hinv Hs. induction Hs as [|p ps Hs IH Hp];
    simpl; constructor.
  - apply IH. now inversion Hinv.
  - inversion Hinv as [|? ? Ep Hps]; subst. apply Forall_map.
    rewrite Forall_forall in Hp, Hps |- *. intros q Hq.
    rewrite <- Ep, <- (Hps q Hq). now apply Hp.
Qed.

Lemma sort_names_sorted (l : list str) :
  StronglySorted (fun f g => key_ltb (key_of g) (key_of f) = false)
                 (map snd (sort_pure [] (keyed l))).
Proof.
  apply map_snd_sorted; [apply sorted_pairs_keyed|].
  apply sort_pure_sorted. constructor.
Qed.

Lemma map_snd_filter (k : pykey) (ps : list (pykey * str)) :
  Forall (fun p => fst p = key_of (snd p)) ps ->
  filter (ties k) (map snd ps)
  = map snd
      (filter (fun p => negb (key_ltb (fst p) k) && negb (key_ltb k (fst p)))
              ps).
Proof.
  induction 1 as [|p ps Hp Hps IH]; simpl; [reflexivity|].
  unfold ties at 1. rewrite <- Hp.
  destruct (negb (key_ltb (fst p) k) && negb (key_ltb k (fst p))); simpl;
    now rewrite IH.
Qed.

(** Stability: the names of any one key keep the order they had. *)
Lemma sort_names_stable (k : pykey) (l : list str) :
  filter (ties k) (map snd (sort_pure [] (keyed l))) = filter (ties k) l.
Proof.
  rewrite map_snd_filter by apply sorted_pairs_keyed.
  rewrite sort_pure_stable by constructor. simpl.
  rewrite <- map_snd_filter.
  - unfold keyed. rewrite map_map. simpl. now rewrite map_id.
  - unfold keyed. apply Forall_map, Forall_forall. now intros.
Qed.

End SortedNames.

(** ** ASCII names

    On ASCII text every Unicode database gives the same answers, so what
    the pipeline does with ASCII names can be computed in any one of them. *)

Lemma latin1_decimal_is_digit (c : N) (d : Z) :
  latin1_to_decimal c = Some d -> latin1_is_digit c = true.
Proof.
  unfold latin1_to_decimal, latin1_is_digit.
  destruct ((48 <=? c)%N && (c <=? 57)%N); [reflexivity | discriminate].
Qed.

Lemma latin1_ascii_digit (c : N) :
  is_ascii c -> latin1_is_digit c = ((48 <=? c) && (c <=? 57))%N.
Proof.
  unfold is_ascii, latin1_is_digit. intros H.
  replace (c =? 178)%N with false by (symmetry; apply N.eqb_neq; lia).
  replace (c =? 179)%N with false by (symmetry; apply N.eqb_neq; lia).
  replace (c =? 185)%N with false by (symmetry; apply N.eqb_neq; lia).
  now rewrite !orb_false_r.
Qed.

Lemma latin1_ascii_lower (s : str) :
  Forall is_ascii s -> map latin1_lower_char s = map ascii_lower_char s.
Proof.
  intros H. apply map_ext_in. intros c Hc.
  rewrite Forall_forall in H. specialize (H c Hc). unfold is_ascii in H.
  unfold latin1_lower_char, ascii_lower_char.
  destruct ((65 <=? c)%N && (c <=? 90)%N); [reflexivity|].
  replace (192 <=? c)%N with false by (symmetry; apply N.leb_gt; lia).
  reflexivity.
Qed.

#[export] Instance Latin1 : Unicode := {|
  to_decimal := latin1_to_decimal;
  is_digit := latin1_is_digit;
  str_lower := map latin1_lower_char;
  decimal_is_digit := latin1_decimal_is_digit;
  ascii_decimal := fun c _ => eq_refl;
  ascii_digit := latin1_ascii_digit;
  ascii_lower := latin1_ascii_lower;
  superscript_two := conj eq_refl eq_refl
|}.

Definition ascii_str (s : str) : Prop := Forall is_ascii s.

Lemma rmap_ext {A B : Type} (f g : A -> result B) (l : list A) :
  Forall (fun x => f x = g x) l -> rmap f l = rmap g l.
Proof.
  induction 1 as [|x l Hx Hl IH]; simpl; [reflexivity|].
  now rewrite Hx, IH.
Qed.

Lemma sorted_ext {A : Type} (key1 key2 : A -> result pykey) (l : list A) :
  Forall (fun x => key1 x = key2 x) l -> sorted key1 l = sorted key2 l.
Proof.
  intros H. unfold sorted. f_equal. apply rmap_ext.
  eapply Forall_impl; [|exact H]. simpl. now intros x ->.
Qed.

Section Ascii.
Variables U1 U2 : Unicode.

Lemma is_decimal_ascii (c : N) :
  is_ascii c -> @is_decimal U1 c = @is_decimal U2 c.
Proof.
  intros H. unfold is_decimal.
  now rewrite (@ascii_decimal U1 c H), (@ascii_decimal U2 c H).
Qed.

Lemma re_split_digits_ascii (s : str) :
  ascii_str s -> @re_split_digits U1 s = @re_split_digits U2 s.
Proof.
  induction 1 as [|c s Hc Hs IH]; simpl; [reflexivity|].
  now rewrite IH, (is_decimal_ascii c Hc).
Qed.

Lemma int_digits_ascii (text : str) (acc : Z) :
  ascii_str text -> @int_digits U1 acc text = @int_digits U2 acc text.
Proof.
  intros H. revert acc. induction H as [|c s Hc Hs IH]; intros acc; simpl;
    [reflexivity|].
  rewrite (@ascii_decimal U1 c Hc), (@ascii_decimal U2 c Hc).
  destruct ((48 <=? c)%N && (c <=? 57)%N); [apply IH | reflexivity].
Qed.

Lemma key_of_text_ascii (p : str) :
  ascii_str p -> @key_of_text U1 p = @key_of_text U2 p.
Proof.
  intros H. unfold key_of_text, isdigit, int_of_str.
  rewrite (@ascii_lower U1 p H), (@ascii_lower U2 p H).
  rewrite (int_digits_ascii p 0 H).
  replace (forallb (@is_digit U1) p) with (forallb (@is_digit U2) p);
    [reflexivity|].
  induction H as [|c s Hc Hs IH]; simpl; [reflexivity|].
  now rewrite IH, (@ascii_digit U1 c Hc), (@ascii_digit U2 c Hc).
Qed.

Lemma natural_sort_key_ascii (s : str) :
  ascii_str s -> @natural_sort_key U1 s = @natural_sort_key U2 s.
Proof.
  intros H. unfold natural_sort_key. rewrite (re_split_digits_ascii s H).
  apply rmap_ext.
  assert (Hp : Forall ascii_str (@re_split_digits U2 s)).
  { apply Forall_concat. now rewrite (@re_split_digits_concat U2 s). }
  eapply Forall_impl; [|exact Hp]. intros p. apply key_of_text_ascii.
Qed.

Lemma retained_ascii (names : list str) :
  Forall ascii_str names -> @retained U1 names = @retained U2 names.
Proof.
  intros H. unfold retained. apply filter_ext_in. intros f Hf.
  rewrite Forall_forall in H.
  now rewrite (@ascii_lower U1 f (H f Hf)), (@ascii_lower U2 f (H f Hf)).
Qed.

Lemma list_images_ascii (names : list str) :
  Forall ascii_str names -> @list_images U1 names = @list_images U2 names.
Proof.
  intros H. unfold list_images. rewrite (retained_ascii names H).
  apply sorted_ext. apply Forall_forall. intros f Hf.
  apply natural_sort_key_ascii.
  rewrite Forall_forall in H. apply H.
  unfold retained in Hf. now apply filter_In in Hf.
Qed.

End Ascii.

(** ** The Sequencer: filtering and ordering the names *)

(** [f] stands before [g] in [l]. *)
Definition before (f g : str) (l : list str) : Prop :=
  exists l1 l2 l3, l = l1 ++ f :: l2 ++ g :: l3.

(** The extensions of the specification. *)
Definition supported_extensions : list str :=
  [u "png"; u "jpg"; u "jpeg"; u "gif"; u "bmp"; u "tiff"].

Lemma endswith1_spec (s suffix : str) :
  endswith1 s suffix = true <-> exists stem, s = stem ++ suffix.
Proof.
  unfold endswith1. rewrite andb_true_iff, str_eqb_eq, Nat.leb_le. split.
  - intros [H _]. exists (firstn (length s - length suffix) s).
    pose proof (firstn_skipn (length s - length suffix) s) as E.
    rewrite H in E. now symmetry.
  - intros [stem ->]. rewrite length_app. split; [|lia].
    replace (length stem + length suffix - length suffix)%nat
      with (length stem + 0)%nat by lia.
    now rewrite skipn_app, Nat.add_0_r, skipn_all, Nat.sub_diag.
Qed.

Lemma endswith_spec (s : str) (suffixes : list str) :
  endswith s suffixes = true
  <-> exists suffix stem, In suffix suffixes /\ s = stem ++ suffix.
Proof.
  unfold endswith. rewrite existsb_exists. split.
  - intros [suffix [Hin H]]. apply endswith1_spec in H as [stem H]. eauto.
  - intros [suffix [stem [Hin H]]]. exists suffix. split; [exact Hin|].
    apply endswith1_spec. eauto.
Qed.

Lemma filter_split {A : Type} (p : A -> bool) (l a b : list A) (y : A) :
  filter p l = a ++ y :: b ->
  exists l1 l2, l = l1 ++ y :: l2 /\ filter p l2 = b.
Proof.
  revert a. induction l as [|x l IH]; intros a H; simpl in H.
  - now destruct a.
  - destruct (p x).
    + destruct a as [|x' a]; simpl in H.
      * injection H as -> H. now exists [], l.
      * injection H as -> H. destruct (IH a H) as [l1 [l2 [-> H2]]].
        now exists (x' :: l1), l2.
    + destruct (IH a H) as [l1 [l2 [-> H2]]]. now exists (x :: l1), l2.
Qed.

Lemma before_of_filter (p : str -> bool) (f g : str) (l : list str) :
  before f g (filter p l) -> before f g l.
Proof.
  intros [a [b [c H]]].
  destruct (filter_split p l a (b ++ g :: c) f H) as [l1 [m [-> Hm]]].
  destruct (filter_split p m b c g Hm) as [l2 [l3 [-> _]]].
  now exists l1, l2, l3.
Qed.

Lemma before_in_filter (p : str -> bool) (f g : str) (l : list str) :
  p f = true -> p g = true -> before f g l -> before f g (filter p l).
Proof.
  intros Hf Hg [l1 [l2 [l3 ->]]].
  exists (filter p l1), (filter p l2), (filter p l3).
  rewrite filter_app. simpl. rewrite Hf, filter_app. simpl. now rewrite Hg.
Qed.

Section Sequencer.
Context {U : Unicode}.

(** The lowercased name ends with a dot and a supported extension. *)
Definition has_supported_extension (f : str) : Prop :=
  exists stem ext,
    In ext supported_extensions /\ str_lower f = stem ++ u "." ++ ext.

(** The keys of two names compare equal. *)
Definition names_compare_equal (f g : str) : Prop :=
  exists kf kg,
    natural_sort_key f = Ret kf /\ natural_sort_key g = Ret kg
    /\ compare_equal kf kg.

(** No name has a smaller key than a name before it. *)
Definition in_key_order (l : list str) : Prop :=
  StronglySorted
    (fun f g => exists kf kg,
         natural_sort_key f = Ret kf /\ natural_sort_key g = Ret kg
         /\ key_lt kg kf = Ret false) l.

Lemma retained_iff (names : list str) (f : str) :
  In f (retained names) <-> In f names /\ has_supported_extension f.
Proof.
  unfold retained. rewrite filter_In, endswith_spec.
  unfold has_supported_extension. split; intros [Hin H]; split; auto.
  - destruct H as [suffix [stem [Hs E]]].
    change image_extensions
      with (map (fun e => u "." ++ e) supported_extensions) in Hs.
    apply in_map_iff in Hs as [ext [<- Hext]]. eauto.
  - destruct H as [stem [ext [Hext E]]].
    exists (u "." ++ ext), stem. split; [|exact E].
    change image_extensions
      with (map (fun e => u "." ++ e) supported_extensions).
    now apply in_map.
Qed.

Lemma in_key_order_of (l : list str) :
  Forall has_key l ->
  StronglySorted (fun f g => key_ltb (key_of g) (key_of f) = false) l ->
  in_key_order l.
Proof.
  unfold in_key_order. intros Hk Hs.
  induction Hs as [|f l Hs IH Hf]; constructor.
  - apply IH. now inversion Hk.
  - inversion Hk as [|? ? Kf Kl]; subst.
    rewrite Forall_forall in Hf, Kl |- *. intros g Hg.
    exists (key_of f), (key_of g).
    rewrite (has_key_of f Kf), (has_key_of g (Kl g Hg)).
    repeat split.
    rewrite (key_lt_alternates _ _ true (key_of_alternates g)
               (key_of_alternates f)).
    f_equal. now apply Hf.
Qed.

Lemma names_compare_equal_ties (f g : str) :
  names_compare_equal f g ->
  ties (key_of f) f = true /\ ties (key_of f) g = true.
Proof.
  intros [kf [kg [Hf [Hg He]]]].
  pose proof (natural_sort_key_alternates f kf Hf) as Af.
  pose proof (natural_sort_key_alternates g kg Hg) as Ag.
  apply (compare_equal_alternates kf kg true Af Ag) in He. subst kg.
  unfold ties, key_of. rewrite Hf, Hg.
  now rewrite key_ltb_irrefl.
Qed.

(** What [list_images] returns when every retained name has a key. *)
Lemma list_images_spec (names : list str) :
  Forall has_key (retained names) ->
  exists image_files,
    list_images names = Ret image_files
    /\ Permutation image_files (retained names)
    /\ in_key_order image_files
    /\ (forall k, filter (ties k) image_files
                  = filter (ties k) (retained names)).
Proof.
  intros H. exists (map snd (sort_pure [] (keyed (retained names)))).
  split; [now apply sorted_pure|].
  split; [apply sort_names_perm|].
  split; [|intros k; apply sort_names_stable].
  apply in_key_order_of; [|apply sort_names_sorted].
  eapply Permutation_Forall; [|exact H].
  symmetry. apply sort_names_perm.
Qed.

End Sequencer.

Lemma ascii_names_check (names : list str) :
  forallb (forallb (fun c => (c <? 128)%N)) names = true ->
  Forall ascii_str names.
Proof.
  intros H. apply Forall_forall. intros f Hf. apply Forall_forall.
  intros c Hc. rewrite forallb_forall in H. specialize (H f Hf).
  rewrite forallb_forall in H. now apply N.ltb_lt, H.
Qed.

Lemma has_key_check {U : Unicode} (l : list str) :
  forallb (fun f => is_ret (natural_sort_key f)) l = true ->
  Forall has_key l.
Proof.
  intros H. apply Forall_forall. intros f Hf.
  rewrite forallb_forall in H. now apply H.
Qed.

(** The names of the examples of the specification. *)
Definition img_names : list str := [u "img2.png"; u "img10.png"; u "img1.png"].
Definition mixed_names : list str := [u "a.png"; u "b.txt"; u "c.JPG"].
Definition mixed_images : list str := [u "a.png"; u "c.JPG"].


Lemma list_images_mixed_names {U : Unicode} :
  list_images mixed_names = Ret mixed_images.
Proof.
  rewrite (list_images_ascii U Latin1 mixed_names).
  - vm_compute. reflexivity.
  - apply ascii_names_check. vm_compute. reflexivity.
Qed.



(** C8. The sort is stable.  When every retained name has a key,
    two retained names whose keys compare equal stand in [image_files] in
    the order they stand in among the retained names, which is the order of
    the directory listing. *)
Theorem C8_sort_is_stable {U : Unicode} (names : list str) :
  Forall has_key (retained names) ->
  exists image_files,
    list_images names = Ret image_files
    /\ forall f g, names_compare_equal f g ->
         (before f g image_files <-> before f g (retained names)).
Proof.
  intros H. destruct (list_images_spec names H) as [l [E [_ [_ S]]]].
  exists l. split; [exact E|]. intros f g T.
  destruct (names_compare_equal_ties f g T) as [Tf Tg].
  specialize (S (key_of f)). split; intros B.
  - apply (before_of_filter (ties (key_of f))). rewrite <- S.
    now apply before_in_filter.
  - apply (before_of_filter (ties (key_of f))). rewrite S.
    now apply before_in_filter.
Qed.

(** Names with equal keys: IMG1.png, img01.png and img1.png. *)
Definition tied_names : list str :=
  [u "img2.png"; u "IMG1.png"; u "img01.png"; u "img1.png"].

Lemma C8_sort_is_stable_witness :
  Forall (@has_key Latin1) (@retained Latin1 tied_names)
  /\ exists image_files,
       @list_images Latin1 tied_names = Ret image_files
       /\ forall f g, @names_compare_equal Latin1 f g ->
            (before f g image_files
             <-> before f g (@retained Latin1 tied_names)).
Proof.
  assert (H : Forall (@has_key Latin1) (@retained Latin1 tied_names)).
  { apply has_key_check. vm_compute. reflexivity. }
  split; [exact H|]. exact (@C8_sort_is_stable Latin1 tied_names H).
Defined.

(** The names of [tied_names] after the sort: the three with the key of
    img1.png first, in the order of the listing. *)
Example list_images_tied_names :
  @list_images Latin1 tied_names
  = Ret [u "IMG1.png"; u "img01.png"; u "img1.png"; u "img2.png"].
Proof. vm_compute. reflexivity. Qed.

Lemma list_images_has_key {U : Unicode} (names l : list str) :
  list_images names = Ret l -> Forall has_key (retained names).
Proof.
  intros E.
  destruct (Forall_dec has_key
              (fun f => bool_dec (is_ret (natural_sort_key f)) true)
              (retained names)) as [H|H]; [exact H|].
  apply sorted_raises in H. unfold list_images in E. rewrite E in H.
  discriminate.
Qed.

(** C6, as amended.  The Sequencer retains exactly the entries whose
    lowercased name ends with a dot and one of png, jpg, jpeg, gif, bmp,
    tiff, whether the entry is a file or a subdirectory, and discards the
    others; [image_files] is a rearrangement of the retained names.  A
    directory containing a.png, b.txt, c.JPG yields a.png, c.JPG. *)
Theorem C6_retains_by_extension {U : Unicode} (entries : list dirent) :
  (forall f, In f (retained (map d_name entries))
             <-> (exists e, In e entries /\ d_name e = f)
                 /\ has_supported_extension f)
  /\ (forall image_files,
        list_images (map d_name entries) = Ret image_files ->
        forall f, In f image_files
                  <-> (exists e, In e entries /\ d_name e = f)
                      /\ has_supported_extension f)
  /\ list_images mixed_names = Ret mixed_images.
Proof.
  assert (R : forall f, In f (retained (map d_name entries))
                        <-> (exists e, In e entries /\ d_name e = f)
                            /\ has_supported_extension f).
  { intros f. rewrite retained_iff, in_map_iff.
    split; intros [[e [H1 H2]] H]; split; eauto. }
  split; [exact R|]. split; [|apply list_images_mixed_names].
  intros l E f. rewrite <- R.
  destruct (list_images_spec _ (list_images_has_key _ _ E)) as [l' [E' [P _]]].
  rewrite E in E'. injection E' as <-.
  split; apply Permutation_in; [exact P | now symmetry].
Qed.

(** A subdirectory named d.png is retained: the claim that subdirectories
    are discarded fails for it. *)
Lemma C6_counterexample :
  ~ (forall (entries : list dirent) (image_files : list str),
        @list_images Latin1 (map d_name entries) = Ret image_files ->
        forall e, In e entries -> d_isdir e = true ->
                  ~ In (d_name e) image_files).
Proof.
  intros H.
  apply (H [{| d_name := u "d.png"; d_isdir := true |}] [u "d.png"]
           eq_refl {| d_name := u "d.png"; d_isdir := true |}).
  - now left.
  - reflexivity.
  - now left.
Qed.

(** C10, at the failing input.  In the name "²1.png" the text before the
    run of decimal digits is the superscript two alone: [isdigit] holds of
    it, [int] rejects it, and [natural_sort_key] raises [ValueError]
    instead of returning a key. *)
Theorem C10_superscript_digit_raises {U : Unicode} :
  natural_sort_key (u "²1.png") = Raise (invalid_literal [0xB2%N]).
Proof.
  destruct superscript_two as [Hd Hn].
  change (u "²1.png") with (0xB2%N :: u "1.png").
  unfold natural_sort_key. cbn [re_split_digits].
  rewrite (re_split_digits_ascii U Latin1 (u "1.png"))
    by (apply Forall_forall; intros c Hc; apply N.ltb_lt;
        revert c Hc; apply forallb_forall; vm_compute; reflexivity).
  replace (@re_split_digits Latin1 (u "1.png"))
    with [[]; [49%N]; u ".png"] by (vm_compute; reflexivity).
  unfold is_decimal. rewrite Hn.
  cbn [rmap]. unfold key_of_text at 1. unfold isdigit. cbn [forallb].
  rewrite Hd. cbn [andb]. unfold int_of_str. cbn [int_digits].
  rewrite Hn. reflexivity.
Qed.

(** ** Runs of [convert_images_to_pdf] *)

(** The callback, when there is one, returns whatever it is called with. *)
Definition never_raises (cb : option callback) : Prop :=
  forall f, cb = Some f -> forall msg, f msg = Ret tt.

(** The messages that reach the callback: all of them, or none when there
    is no callback. *)
Definition emitted (cb : option callback) (msgs : list str) : list str :=
  match cb with
  | Some _ => msgs
  | None => []
  end.

(** The directory of the output exists, or can be made. *)
Definition output_dir_ok (W : world) (output_pdf : str) : Prop :=
  let output_dir := os_path_dirname W output_pdf in
  negb (str_eqb output_dir []) && negb (os_path_exists W output_dir) = true ->
  os_makedirs W output_dir = Ret tt.

(** What the body of the loop comes to for one image: the drawing put on
    a new page, or the exception of the step that failed. *)
Definition file_outcome (W : world) (width height : float) (image_path : str)
  : result drawing :=
  (size <- image_getSize W image_path ;;
   p <- place_image width height (fst size) (snd size) ;;
   _ <- canvas_drawImage W image_path ;;
   Ret {| dr_image := image_path; dr_place := p |})%result.

Section RunParts.
Variable W : world.
Variables image_folder output_pdf : str.
Variables width height : float.
Variable cb : option callback.
Variable total : nat.

(** The pages a file adds to the document: one, or none when it fails. *)
Definition file_pages (filename : str) : list page :=
  match file_outcome W width height (os_path_join W image_folder filename) with
  | Ret d => [[d]]
  | Raise _ => []
  end.

(** The progress events of a file: the one that announces it, and one
    more, with its name and the error, when it fails. *)
Definition file_events (i : nat) (filename : str) : list str :=
  msg_processing i total filename
  :: match file_outcome W width height
             (os_path_join W image_folder filename) with
     | Ret _ => []
     | Raise e => [msg_warning filename e]
     end.

Fixpoint loop_events (i : nat) (files : list str) : list str :=
  match files with
  | [] => []
  | filename :: files' => file_events i filename ++ loop_events (S i) files'
  end.

Definition loop_pages (files : list str) : list page :=
  flat_map file_pages files.

(** The files of the list that fail. *)
Definition failed_files (files : list str) : list str :=
  filter (fun filename =>
            negb (is_ret (file_outcome W width height
                            (os_path_join W image_folder filename)))) files.

Definition push_pages (c : canvas) (ps : list page) : canvas :=
  {| cv_filename := cv_filename c; cv_pagesize := cv_pagesize c;
     cv_code := cv_code c; cv_pages := cv_pages c ++ ps |}.

End RunParts.

Ltac state_eq :=
  unfold set_canvas, set_events, set_files, set_made_dirs, push_pages,
    loop_pages, emitted;
  simpl;
  match goal with
  | |- context [match ?o with Some _ => _ | None => _ end] =>
      destruct o; simpl
  | _ => idtac
  end;
  rewrite ?app_nil_r, <- ?app_assoc; simpl; reflexivity.

Section Runs.
Variable W : world.
Variables image_folder output_pdf : str.
Variables width height : float.
Variable cb : option callback.
Variable total : nat.

Abbreviation file_events := (file_events W image_folder width height total).
Abbreviation loop_events := (loop_events W image_folder width height total).
Abbreviation file_pages := (file_pages W image_folder width height).
Abbreviation loop_pages := (loop_pages W image_folder width height).
Abbreviation failed_files := (failed_files W image_folder width height).

Lemma emit_run (msg : str) (s : state) :
  never_raises cb ->
  emit cb msg s = (Ret tt, set_events s (st_events s ++ emitted cb [msg])).
Proof.
  intros H. unfold emit, emitted. destruct cb as [f|].
  - now rewrite (H f eq_refl msg).
  - unfold ret. destruct s; simpl. now rewrite app_nil_r.
Qed.

(** One turn of the loop body, on a canvas with an empty current page. *)
Lemma draw_page_run (image_path : str) (handler : exn -> M unit)
    (s : state) (c : canvas) :
  st_canvas s = Some c -> cv_code c = [] ->
  try_except (draw_page W width height image_path) handler s
  = match file_outcome W width height image_path with
    | Ret d => (Ret tt, set_canvas s (Some (push_pages c [[d]])))
    | Raise e => handler e s
    end.
Proof.
  intros Hc Hcode.
  unfold try_except, draw_page, file_outcome, bind, lift, drawImage, showPage.
  destruct (image_getSize W image_path) as [size|e]; simpl; [|reflexivity].
  destruct (place_image width height (fst size) (snd size)) as [p|e]; simpl;
    [|reflexivity].
  destruct (canvas_drawImage W image_path) as [[]|e]; simpl; [|reflexivity].
  rewrite Hc. destruct c; simpl in *; subst. reflexivity.
Qed.

(** The loop: it never raises; each file adds its events and its page. *)
Lemma process_files_run (files : list str) (i : nat) (s : state) (c : canvas) :
  never_raises cb ->
  st_canvas s = Some c -> cv_code c = [] ->
  process_files W image_folder width height cb total i files s
  = (Ret tt,
     set_canvas
       (set_events s (st_events s ++ emitted cb (loop_events i files)))
       (Some (push_pages c (loop_pages files)))).
Proof.
  intros Hcb. revert i s c.
  induction files as [|filename files IH]; intros i s c Hc Hcode.
  - simpl. unfold ret. destruct s, c; simpl in *; subst. state_eq.
  - cbn [process_files]. unfold bind at 1. rewrite (emit_run _ _ Hcb).
    unfold bind at 1.
    rewrite (draw_page_run _ _ _ c) by (destruct s; assumption || exact Hcode).
    unfold loop_pages. cbn [loop_events flat_map]. unfold file_pages at 1.
    unfold file_events.
    destruct (file_outcome W width height
                (os_path_join W image_folder filename)) as [d|e].
    + rewrite (IH (S i) _ (push_pages c [[d]])) by (reflexivity || exact Hcode).
      destruct s, c; simpl in *; subst. state_eq.
    + rewrite (emit_run _ _ Hcb).
      rewrite (IH (S i) _ c) by (destruct s; assumption || exact Hcode).
      destruct s, c; simpl in *; subst. state_eq.
Qed.

Lemma loop_events_length (i : nat) (files : list str) :
  length (loop_events i files)
  = (length files + length (failed_files files))%nat.
Proof.
  revert i. induction files as [|filename files IH]; intros i; simpl;
    [reflexivity|].
  rewrite length_app, IH. unfold file_events.
  destruct (file_outcome W width height
              (os_path_join W image_folder filename)); simpl; lia.
Qed.

Lemma loop_pages_length (files : list str) :
  (length (loop_pages files) + length (failed_files files))%nat
  = length files.
Proof.
  unfold loop_pages. induction files as [|filename files IH]; simpl;
    [reflexivity|].
  rewrite length_app. unfold file_pages at 1.
  destruct (file_outcome W width height
              (os_path_join W image_folder filename)); simpl; lia.
Qed.

End Runs.

Section WholeRuns.
Context {U : Unicode}.
Variable W : world.
Variables image_folder output_pdf : str.
Variable page_size : page_size_arg.
Variable cb : option callback.

(** The directories the run makes before anything else. *)
Definition made_dirs : list str :=
  let output_dir := os_path_dirname W output_pdf in
  if negb (str_eqb output_dir []) && negb (os_path_exists W output_dir)
  then [output_dir] else [].

(** The canvas as [canvas.Canvas] returns it. *)
Definition fresh_canvas (pagesize : float * float) : canvas :=
  {| cv_filename := output_pdf; cv_pagesize := pagesize;
     cv_code := []; cv_pages := [] |}.

(** The state in which a run from [s0] ends: the events, the directories
    made and the files written are added to those of [s0]. *)
Definition end_state (s0 : state) (events : list str) (c : option canvas)
    (files : list (str * list page)) : state :=
  {| st_events := st_events s0 ++ emitted cb events;
     st_made_dirs := st_made_dirs s0 ++ made_dirs;
     st_canvas := c; st_files := st_files s0 ++ files;
     st_dialogs := st_dialogs s0; st_button := st_button s0 |}.

Definition run (s0 : state) : result unit * state :=
  convert_images_to_pdf W image_folder output_pdf page_size cb s0.

Hypothesis cb_returns : never_raises cb.
Hypothesis dir_ok : output_dir_ok W output_pdf.

Lemma prepare_run (s0 : state) :
  (if negb (str_eqb (os_path_dirname W output_pdf) [])
      && negb (os_path_exists W (os_path_dirname W output_pdf))
   then makedirs W (os_path_dirname W output_pdf) else ret tt) s0
  = (Ret tt, set_made_dirs s0 (st_made_dirs s0 ++ made_dirs)).
Proof.
  unfold made_dirs. pose proof dir_ok as H. unfold output_dir_ok in H.
  cbv zeta in H |- *.
  destruct (negb (str_eqb (os_path_dirname W output_pdf) [])
            && negb (os_path_exists W (os_path_dirname W output_pdf))).
  - unfold makedirs. now rewrite (H eq_refl).
  - unfold ret. destruct s0; simpl. now rewrite app_nil_r.
Qed.

(** A run whose listing fails: the error is reported as a progress event,
    and the call returns as every call does. *)
Lemma run_listdir_raises (s0 : state) (pagesize : float * float) (e : exn) :
  select_pagesize page_size = Ret pagesize ->
  canvas_Canvas W output_pdf = Ret tt ->
  os_listdir W image_folder = Raise e ->
  run s0 = (Ret tt, end_state s0 [msg_failed e] (Some (fresh_canvas pagesize)) []).
Proof.
  intros Hp Hc Hl. unfold run, convert_images_to_pdf, try_except.
  cbv zeta. unfold bind at 1. rewrite prepare_run.
  unfold bind at 1, lift at 1. rewrite Hp.
  unfold bind at 1, new_canvas. rewrite Hc.
  unfold bind at 1, lift at 1. rewrite Hl.
  rewrite (emit_run cb _ _ cb_returns). unfold end_state.
  destruct s0. state_eq.
Qed.

(** A run that finds no image. *)
Lemma run_empty (s0 : state) (pagesize : float * float)
    (entries : list dirent) :
  select_pagesize page_size = Ret pagesize ->
  canvas_Canvas W output_pdf = Ret tt ->
  os_listdir W image_folder = Ret entries ->
  list_images (map d_name entries) = Ret [] ->
  run s0 = (Ret tt, end_state s0 [msg_no_images] (Some (fresh_canvas pagesize)) []).
Proof.
  intros Hp Hc Hl Hi. unfold run, convert_images_to_pdf, try_except.
  cbv zeta. unfold bind at 1. rewrite prepare_run.
  unfold bind at 1, lift at 1. rewrite Hp.
  unfold bind at 1, new_canvas. rewrite Hc.
  unfold bind at 1, lift at 1. rewrite Hl.
  unfold bind at 1, lift at 1. rewrite Hi.
  change (length (@nil str) =? 0)%nat with true. cbv iota.
  rewrite (emit_run cb _ _ cb_returns). unfold end_state.
  destruct s0. state_eq.
Qed.

(** A run that finds images: every file is gone through, then the
    document is saved, or the failure to save it reported. *)
Lemma run_images (s0 : state) (pagesize : float * float)
    (entries : list dirent) (image_files : list str) :
  select_pagesize page_size = Ret pagesize ->
  canvas_Canvas W output_pdf = Ret tt ->
  os_listdir W image_folder = Ret entries ->
  list_images (map d_name entries) = Ret image_files ->
  image_files <> [] ->
  let events :=
    loop_events W image_folder (fst pagesize) (snd pagesize)
      (length image_files) 0 image_files in
  let pages :=
    loop_pages W image_folder (fst pagesize) (snd pagesize) image_files in
  let c := Some (push_pages (fresh_canvas pagesize) pages) in
  run s0 = match canvas_save W output_pdf with
        | Ret _ =>
            (Ret tt,
             end_state s0 (events ++ [msg_success output_pdf]) c
               [(output_pdf, pages)])
        | Raise e => (Ret tt, end_state s0 (events ++ [msg_failed e]) c [])
        end.
Proof.
  intros Hp Hc Hl Hi Hne. unfold run, convert_images_to_pdf, try_except.
  cbv zeta. unfold bind at 1. rewrite prepare_run.
  unfold bind at 1, lift at 1. rewrite Hp.
  unfold bind at 1, new_canvas. rewrite Hc.
  unfold bind at 1, lift at 1. rewrite Hl.
  unfold bind at 1, lift at 1. rewrite Hi.
  assert (Hlen : (length image_files =? 0)%nat = false)
    by (destruct image_files; [congruence | reflexivity]).
  rewrite Hlen. unfold bind at 1.
  erewrite process_files_run;
    [| exact cb_returns | reflexivity | reflexivity].
  unfold bind at 1, save.
  cbn [st_canvas set_canvas set_events cv_filename push_pages fresh_canvas].
  destruct (canvas_save W output_pdf) as [[]|e].
  - rewrite (emit_run cb _ _ cb_returns). unfold end_state, canvas_document.
    destruct s0. state_eq.
  - rewrite (emit_run cb _ _ cb_returns). unfold end_state.
    destruct s0. state_eq.
Qed.

(** A run in which a name has no key: the sort raises, and the error is
    reported as the failure of the listing is. *)
Lemma run_list_images_raises (s0 : state) (pagesize : float * float)
    (entries : list dirent) (e : exn) :
  select_pagesize page_size = Ret pagesize ->
  canvas_Canvas W output_pdf = Ret tt ->
  os_listdir W image_folder = Ret entries ->
  list_images (map d_name entries) = Raise e ->
  run s0 = (Ret tt, end_state s0 [msg_failed e] (Some (fresh_canvas pagesize)) []).
Proof.
  intros Hp Hc Hl Hi. unfold run, convert_images_to_pdf, try_except.
  cbv zeta. unfold bind at 1. rewrite prepare_run.
  unfold bind at 1, lift at 1. rewrite Hp.
  unfold bind at 1, new_canvas. rewrite Hc.
  unfold bind at 1, lift at 1. rewrite Hl.
  unfold bind at 1, lift at 1. rewrite Hi.
  rewrite (emit_run cb _ _ cb_returns). unfold end_state.
  destruct s0. state_eq.
Qed.

(** Once the canvas is created, the run ends with a canvas of the page
    size selected. *)
Lemma run_canvas_pagesize (s0 : state) (pagesize : float * float) :
  select_pagesize page_size = Ret pagesize ->
  canvas_Canvas W output_pdf = Ret tt ->
  exists c, st_canvas (snd (run s0)) = Some c /\ cv_pagesize c = pagesize.
Proof.
  intros Hp Hc.
  destruct (os_listdir W image_folder) as [entries|e] eqn:Hl.
  - destruct (list_images (map d_name entries)) as [image_files|e] eqn:Hi.
    + destruct image_files as [|f files].
      * rewrite (run_empty s0 pagesize entries Hp Hc Hl Hi).
        now exists (fresh_canvas pagesize).
      * rewrite (run_images s0 pagesize entries (f :: files) Hp Hc Hl Hi)
          by discriminate.
        destruct (canvas_save W output_pdf); eexists; split; reflexivity.
    + rewrite (run_list_images_raises s0 pagesize entries e Hp Hc Hl Hi).
      now exists (fresh_canvas pagesize).
  - rewrite (run_listdir_raises s0 pagesize e Hp Hc Hl).
    now exists (fresh_canvas pagesize).
Qed.

End WholeRuns.

(** ** Sample worlds *)

Definition join_slash (a b : str) : str := a ++ u "/" ++ b.

Definition file_entry (name : str) : dirent :=
  {| d_name := name; d_isdir := false |}.

(** A world in which the output directory exists and the canvas can be
    created; the listing, the images and the outcome of [save] vary. *)
Definition sample_world (listing : result (list dirent))
    (size : str -> result (Z * Z)) (saved : result unit) : world :=
  {| os_path_dirname := fun _ => u "out";
     os_path_exists := fun _ => true;
     os_makedirs := fun _ => Ret tt;
     os_path_join := join_slash;
     os_listdir := fun _ => listing;
     canvas_Canvas := fun _ => Ret tt;
     image_getSize := size;
     canvas_drawImage := fun _ => Ret tt;
     canvas_save := fun _ => saved |}.

Definition no_such_directory : exn :=
  Exn OSError (u "[Errno 2] No such file or directory: 'photos'").

Definition cannot_identify : exn :=
  Exn OSError (u "cannot identify image file 'photos/2.png'").

Definition permission_denied : exn :=
  Exn OSError (u "[Errno 13] Permission denied: 'out/album.pdf'").

Definition three_files : list dirent :=
  [file_entry (u "1.png"); file_entry (u "2.png"); file_entry (u "3.png")].

Definition small_image (path : str) : result (Z * Z) := Ret (100, 100)%Z.

Definition second_fails (path : str) : result (Z * Z) :=
  if str_eqb path (u "photos/2.png") then Raise cannot_identify
  else Ret (100, 100)%Z.

(** The source directory does not exist. *)
Definition world_missing : world :=
  sample_world (Raise no_such_directory) small_image (Ret tt).


(** Three images, the second of which cannot be decoded. *)
Definition world_partial : world :=
  sample_world (Ret three_files) second_fails (Ret tt).

(** Three images, all good. *)
Definition world_full : world :=
  sample_world (Ret three_files) small_image (Ret tt).

(** Three images, and a destination that cannot be written. *)
Definition world_readonly : world :=
  sample_world (Ret three_files) small_image (Raise permission_denied).

Definition photos : str := u "photos".
Definition album : str := u "out/album.pdf".

(** ** Failures and what the caller sees *)

Section Failures.
Context {U : Unicode}.

(** The call returns [None], whatever happened, when the callback does
    not raise. *)
Lemma convert_returns (W : world) (image_folder output_pdf : str)
    (page_size : page_size_arg) (cb : option callback) (s0 : state) :
  never_raises cb ->
  fst (convert_images_to_pdf W image_folder output_pdf page_size cb s0)
  = Ret tt.
Proof.
  intros H. unfold convert_images_to_pdf, try_except.
  match goal with
  | |- fst (match ?body with _ => _ end) = _ => destruct body as [[[]|e] s]
  end.
  - reflexivity.
  - now rewrite (emit_run cb _ _ H).
Qed.

Lemma update_progress_returns : never_raises (Some update_progress).
Proof. intros f [= <-] msg. reflexivity. Qed.

(** The message box of success. *)
Definition success_dialog (output_pdf : str) : dialog :=
  ShowInfo (u "成功") (u "PDF已生成：" ++ [10%N] ++ output_pdf).

(** [start_conversion] with both fields filled in: whatever the
    conversion did, the window shows the message box of success. *)
Lemma start_conversion_run (W : world)
    (image_folder output_pdf page_size : str) :
  image_folder <> [] -> output_pdf <> [] ->
  let after :=
    snd (convert_images_to_pdf W image_folder output_pdf
           (PageSizeStr page_size) (Some update_progress)
           (set_button init_state false)) in
  start_conversion W image_folder output_pdf page_size init_state
  = (Ret tt,
     set_button
       (set_dialogs after (st_dialogs after ++ [success_dialog output_pdf]))
       true).
Proof.
  intros Hf Ho. cbv zeta. unfold start_conversion.
  destruct (str_eqb image_folder []) eqn:Ef;
    [apply str_eqb_eq in Ef; congruence|].
  destruct (str_eqb output_pdf []) eqn:Eo;
    [apply str_eqb_eq in Eo; congruence|].
  unfold bind at 1, button_config at 1.
  unfold try_finally, try_except. unfold bind at 1.
  pose proof (convert_returns W image_folder output_pdf
                (PageSizeStr page_size) (Some update_progress)
                (set_button init_state false) update_progress_returns) as R.
  destruct (convert_images_to_pdf W image_folder output_pdf
              (PageSizeStr page_size) (Some update_progress)
              (set_button init_state false)) as [r s].
  simpl in R. subst r. reflexivity.
Qed.

End Failures.

(** ** The claims about failures *)

(** The events and the pages of the loop, file by file. *)
Section LoopShape.
Variable W : world.
Variable image_folder : str.
Variables width height : float.
Variable total : nat.

Lemma combine_seq_app (A : Type) (i : nat) (a b : list A) :
  combine (seq i (length (a ++ b))) (a ++ b)
  = combine (seq i (length a)) a
    ++ combine (seq (i + length a) (length b)) b.
Proof.
  revert i. induction a as [|x a IH]; intros i.
  - simpl. now rewrite Nat.add_0_r.
  - cbn [app length seq combine]. rewrite IH.
    replace (S i + length a)%nat with (i + S (length a))%nat by lia.
    reflexivity.
Qed.

(** The events of the loop are those of its files, each with its index. *)
Lemma loop_events_closed (i : nat) (files : list str) :
  loop_events W image_folder width height total i files
  = flat_map (fun kf => file_events W image_folder width height total
                          (fst kf) (snd kf))
      (combine (seq i (length files)) files).
Proof.
  revert i. induction files as [|filename files IH]; intros i;
    [reflexivity|].
  cbn [loop_events length seq combine flat_map fst snd].
  now rewrite IH.
Qed.

(** Around a file that fails: the events of the files before it, its own
    two, and the events of the files after it. *)
Lemma events_around_failure (k : nat) (filename : str) (e : exn)
    (files_before files_after : list str) :
  length files_before = k ->
  file_outcome W width height (os_path_join W image_folder filename)
  = Raise e ->
  let events_of := fun kf : nat * str =>
    file_events W image_folder width height total (fst kf) (snd kf) in
  flat_map events_of
    (combine (seq 0 (length (files_before ++ filename :: files_after)))
       (files_before ++ filename :: files_after))
  = flat_map events_of (combine (seq 0 k) files_before)
    ++ [msg_processing k total filename; msg_warning filename e]
    ++ flat_map events_of
         (combine (seq (S k) (length files_after)) files_after).
Proof.
  intros Hk Hfail events_of. rewrite combine_seq_app, flat_map_app, Hk.
  f_equal. cbn [length seq combine flat_map Nat.add].
  unfold events_of at 1, file_events. cbn [fst snd]. rewrite Hfail.
  reflexivity.
Qed.

Lemma pages_around_failure (filename : str) (e : exn)
    (files_before files_after : list str) :
  file_outcome W width height (os_path_join W image_folder filename)
  = Raise e ->
  loop_pages W image_folder width height
    (files_before ++ filename :: files_after)
  = loop_pages W image_folder width height files_before
    ++ loop_pages W image_folder width height files_after.
Proof.
  intros Hfail. unfold loop_pages. rewrite flat_map_app.
  cbn [flat_map]. unfold file_pages at 2. now rewrite Hfail.
Qed.

End LoopShape.

(** C3. A file that fails to decode or draw is skipped, and the batch goes
    on.  In a run that reaches the loop and can save, with no callback or
    with one that returns, the events the callback is given are, file by
    file in order, the text announcing the file by its rank and name, and,
    for a file that fails, exactly one more, the warning text with its
    file name and the error detail; then comes the text of success with
    the destination path.  The document written holds one page for each
    file that did not fail, in order, and none for the others; the files
    after a failed one are gone through as those before it; the call
    returns. *)
Theorem C3_failed_file_is_skipped {U : Unicode} (W : world)
    (image_folder output_pdf : str) (page_size : page_size_arg)
    (cb : option callback) (pagesize : float * float)
    (entries : list dirent) (image_files : list str) :
  never_raises cb ->
  output_dir_ok W output_pdf ->
  select_pagesize page_size = Ret pagesize ->
  canvas_Canvas W output_pdf = Ret tt ->
  os_listdir W image_folder = Ret entries ->
  list_images (map d_name entries) = Ret image_files ->
  image_files <> [] ->
  canvas_save W output_pdf = Ret tt ->
  let total := length image_files in
  let outcome := fun filename : str =>
    file_outcome W (fst pagesize) (snd pagesize)
      (os_path_join W image_folder filename) in
  let announce := fun (k : nat) (filename : str) =>
    u "正在处理 (" ++ str_of_nat (k + 1) ++ u "/" ++ str_of_nat total
      ++ u ")：" ++ filename in
  let warning := fun (filename : str) (e : exn) =>
    u "警告：处理 " ++ filename ++ u " 失败 - " ++ exn_str e in
  let events_of := fun kf : nat * str =>
    announce (fst kf) (snd kf)
    :: match outcome (snd kf) with
       | Ret _ => []
       | Raise e => [warning (snd kf) e]
       end in
  let pages_of := fun filename : str =>
    match outcome filename with
    | Ret d => [[d]]
    | Raise _ => []
    end in
  let failed := filter (fun filename => negb (is_ret (outcome filename)))
                  image_files in
  let events := flat_map events_of (combine (seq 0 total) image_files) in
  let pages := flat_map pages_of image_files in
  let final :=
    convert_images_to_pdf W image_folder output_pdf page_size cb
      init_state in
  fst final = Ret tt
  /\ st_events (snd final)
     = emitted cb (events ++ [u "成功！PDF已保存至：" ++ output_pdf])
  /\ st_files (snd final) = [(output_pdf, pages)]
  /\ length events = (total + length failed)%nat
  /\ (length pages + length failed)%nat = total
  /\ (forall k filename e,
        nth_error image_files k = Some filename ->
        outcome filename = Raise e ->
        exists files_before files_after,
          image_files = files_before ++ filename :: files_after
          /\ length files_before = k
          /\ events
             = flat_map events_of (combine (seq 0 k) files_before)
               ++ [announce k filename; warning filename e]
               ++ flat_map events_of
                    (combine (seq (S k) (length files_after)) files_after)
          /\ pages
             = flat_map pages_of files_before
               ++ flat_map pages_of files_after).
Proof.
  intros Hcb Hdir Hp Hc Hl Hi Hne Hs. cbv zeta.
  change (convert_images_to_pdf W image_folder output_pdf page_size cb
            init_state)
    with (run W image_folder output_pdf page_size cb init_state).
  rewrite (run_images W image_folder output_pdf page_size cb Hcb Hdir
             init_state pagesize entries image_files Hp Hc Hl Hi Hne).
  rewrite Hs. simpl fst. simpl snd.
  unfold end_state. cbn [st_events st_files init_state app].
  rewrite loop_events_closed.
  split; [reflexivity|]. split; [reflexivity|]. split; [reflexivity|].
  split; [|split].
  - pose proof (loop_events_length W image_folder (fst pagesize)
                  (snd pagesize) (length image_files) 0 image_files) as Hlen.
    rewrite loop_events_closed in Hlen. exact Hlen.
  - exact (loop_pages_length W image_folder (fst pagesize) (snd pagesize)
             image_files).
  - intros k filename e Hk Hfail.
    destruct (nth_error_split image_files k Hk)
      as [files_before [files_after [Hsplit Hlen]]].
    exists files_before, files_after. subst image_files.
    split; [reflexivity|]. split; [exact Hlen|]. split.
    + exact (events_around_failure W image_folder (fst pagesize)
               (snd pagesize)
               (length (files_before ++ filename :: files_after))
               k filename e files_before files_after Hlen Hfail).
    + exact (pages_around_failure W image_folder (fst pagesize)
               (snd pagesize) filename e files_before files_after Hfail).
Qed.

Lemma C3_failed_file_is_skipped_witness :
  let W := world_partial in
  let image_files := [u "1.png"; u "2.png"; u "3.png"] in
  let cb := Some update_progress in
  let outcome := fun filename : str =>
    file_outcome W (fst A4) (snd A4) (os_path_join W photos filename) in
  let announce := fun (k : nat) (filename : str) =>
    u "正在处理 (" ++ str_of_nat (k + 1) ++ u "/" ++ str_of_nat 3
      ++ u ")：" ++ filename in
  let warning := fun (filename : str) (e : exn) =>
    u "警告：处理 " ++ filename ++ u " 失败 - " ++ exn_str e in
  let events_of := fun kf : nat * str =>
    announce (fst kf) (snd kf)
    :: match outcome (snd kf) with
       | Ret _ => []
       | Raise e => [warning (snd kf) e]
       end in
  let pages_of := fun filename : str =>
    match outcome filename with
    | Ret d => [[d]]
    | Raise _ => []
    end in
  let failed := filter (fun filename => negb (is_ret (outcome filename)))
                  image_files in
  let events := flat_map events_of (combine (seq 0 3) image_files) in
  let pages := flat_map pages_of image_files in
  let final :=
    @convert_images_to_pdf Latin1 W photos album (PageSizeStr (u "A4")) cb
      init_state in
  fst final = Ret tt
  /\ st_events (snd final)
     = emitted cb (events ++ [u "成功！PDF已保存至：" ++ album])
  /\ st_files (snd final) = [(album, pages)]
  /\ length events = (3 + length failed)%nat
  /\ (length pages + length failed)%nat = 3%nat
  /\ (forall k filename e,
        nth_error image_files k = Some filename ->
        outcome filename = Raise e ->
        exists files_before files_after,
          image_files = files_before ++ filename :: files_after
          /\ length files_before = k
          /\ events
             = flat_map events_of (combine (seq 0 k) files_before)
               ++ [announce k filename; warning filename e]
               ++ flat_map events_of
                    (combine (seq (S k) (length files_after)) files_after)
          /\ pages
             = flat_map pages_of files_before
               ++ flat_map pages_of files_after).
Proof.
  exact (@C3_failed_file_is_skipped Latin1 world_partial photos album
           (PageSizeStr (u "A4")) (Some update_progress) A4 three_files
           [u "1.png"; u "2.png"; u "3.png"]
           update_progress_returns (fun _ => eq_refl) eq_refl eq_refl eq_refl
           eq_refl ltac:(discriminate) eq_refl).
Defined.

(** Three images of which the second cannot be decoded: five events, the
    third of them the warning about 2.png, and a document of two pages, for
    1.png and 3.png in that order. *)
Example partial_failure_run :
  let final :=
    @convert_images_to_pdf Latin1 world_partial photos album
      (PageSizeStr (u "A4")) (Some update_progress) init_state in
  fst final = Ret tt
  /\ st_events (snd final)
     = [msg_processing 0 3 (u "1.png");
        msg_processing 1 3 (u "2.png");
        msg_warning (u "2.png") cannot_identify;
        msg_processing 2 3 (u "3.png");
        msg_success album]
  /\ map (fun f => (fst f, map (map dr_image) (snd f))) (st_files (snd final))
     = [(album, [[u "photos/1.png"]; [u "photos/3.png"]])].
Proof. vm_compute. repeat split. Qed.




(** C9. Whatever the world, the folder, the destination, the page size
    and the state the run starts in, a call whose callback does not raise
    returns [None]: no failure is raised to the caller, and the value
    returned is the same after a failure as after a success. *)
Theorem C9_never_raises {U : Unicode} (W : world)
    (image_folder output_pdf : str) (page_size : page_size_arg)
    (cb : option callback) (s0 : state) :
  never_raises cb ->
  fst (convert_images_to_pdf W image_folder output_pdf page_size cb s0)
  = Ret tt.
Proof. apply convert_returns. Qed.

Lemma C9_never_raises_witness :
  never_raises (Some update_progress)
  /\ fst (@convert_images_to_pdf Latin1 world_missing photos album
            (PageSizeTuple letter) (Some update_progress) init_state)
     = Ret tt.
Proof.
  split; [exact update_progress_returns|].
  exact (@C9_never_raises Latin1 world_missing photos album
           (PageSizeTuple letter) (Some update_progress) init_state
           update_progress_returns).
Defined.

(** The failures of the runs of the sample worlds, as the callback hears
    of them. *)
Example missing_directory_run :
  @convert_images_to_pdf Latin1 world_missing photos album
    (PageSizeStr (u "A4")) (Some update_progress) init_state
  = (Ret tt,
     end_state world_missing album (Some update_progress) init_state
       [msg_failed no_such_directory] (Some (fresh_canvas album A4)) []).
Proof. vm_compute. reflexivity. Qed.

Example default_page_size_run :
  st_events
    (snd (@convert_images_to_pdf Latin1 world_full photos album
            (PageSizeTuple letter) (Some update_progress) init_state))
  = [msg_failed no_lower].
Proof. vm_compute. reflexivity. Qed.

Example unwritable_destination_run :
  let final :=
    @convert_images_to_pdf Latin1 world_readonly photos album
      (PageSizeStr (u "A4")) (Some update_progress) init_state in
  fst final = Ret tt
  /\ last (st_events (snd final)) [] = msg_failed permission_denied
  /\ st_files (snd final) = [].
Proof. vm_compute. repeat split. Qed.

(** C4, at the failing input.  When the source directory cannot be listed
    the call returns [None] as after a success: the failure reaches the
    caller as the text of one progress event and as nothing else, and
    [start_conversion], which shows the message box of failure only when
    the call raises, shows the message box of success. *)
Theorem C4_fatal_error_is_swallowed {U : Unicode} (W : world)
    (image_folder output_pdf page_size : str) (e : exn) :
  image_folder <> [] -> output_pdf <> [] ->
  output_dir_ok W output_pdf ->
  canvas_Canvas W output_pdf = Ret tt ->
  os_listdir W image_folder = Raise e ->
  (forall cb s0,
      never_raises cb ->
      let final :=
        convert_images_to_pdf W image_folder output_pdf
          (PageSizeStr page_size) cb s0 in
      fst final = Ret tt
      /\ st_events (snd final) = st_events s0 ++ emitted cb [msg_failed e]
      /\ st_files (snd final) = st_files s0)
  /\ st_dialogs
       (snd (start_conversion W image_folder output_pdf page_size init_state))
     = [success_dialog output_pdf].
Proof.
  intros Hf Ho Hdir Hc Hl.
  assert (R : forall cb s0, never_raises cb ->
            convert_images_to_pdf W image_folder output_pdf
              (PageSizeStr page_size) cb s0
            = (Ret tt,
               end_state W output_pdf cb s0 [msg_failed e]
                 (Some (fresh_canvas output_pdf
                          (if str_eqb (str_lower page_size) (u "a4")
                           then A4 else letter))) [])).
  { intros cb s0 Hcb.
    exact (run_listdir_raises W image_folder output_pdf
             (PageSizeStr page_size) cb Hcb Hdir s0 _ e eq_refl Hc Hl). }
  split.
  - intros cb s0 Hcb. cbv zeta. rewrite (R cb s0 Hcb). simpl.
    now rewrite app_nil_r.
  - rewrite (start_conversion_run W image_folder output_pdf page_size Hf Ho).
    cbv zeta. rewrite (R _ _ update_progress_returns). reflexivity.
Qed.

Lemma C4_fatal_error_is_swallowed_witness :
  (forall cb s0,
      never_raises cb ->
      let final :=
        @convert_images_to_pdf Latin1 world_missing photos album
          (PageSizeStr (u "A4")) cb s0 in
      fst final = Ret tt
      /\ st_events (snd final)
         = st_events s0 ++ emitted cb [msg_failed no_such_directory]
      /\ st_files (snd final) = st_files s0)
  /\ st_dialogs
       (snd (@start_conversion Latin1 world_missing photos album (u "A4")
               init_state))
     = [success_dialog album].
Proof.
  exact (@C4_fatal_error_is_swallowed Latin1 world_missing photos album
           (u "A4") no_such_directory
           ltac:(discriminate) ltac:(discriminate)
           (fun _ => eq_refl) eq_refl eq_refl).
Defined.

(** The same for a destination that cannot be written: the window shows
    the message box of success, and no file was written. *)
Example unwritable_destination_dialog :
  let final :=
    snd (@start_conversion Latin1 world_readonly photos album (u "A4")
           init_state) in
  st_dialogs final = [success_dialog album] /\ st_files final = [].
Proof. vm_compute. split; reflexivity. Qed.

(** Two strings match case-insensitively: they are equal once lowercased. *)
Definition matches_ignoring_case {U : Unicode} (a b : str) : Prop :=
  str_lower a = str_lower b.

Lemma A4_is_not_letter : A4 <> letter.
Proof.
  intros H.
  apply (f_equal (fun p : float * float => PrimFloat.eqb (fst p) 612)) in H.
  vm_compute in H. discriminate.
Qed.

Lemma lower_a4 {U : Unicode} : str_lower (u "a4") = u "a4".
Proof.
  rewrite ascii_lower; [reflexivity|].
  apply Forall_forall. intros c Hc. apply N.ltb_lt.
  revert c Hc. apply forallb_forall. vm_compute. reflexivity.
Qed.

(** C7. For a [page_size] that is a string, the selection of the page
    size never raises; it gives A4 exactly when the string matches "a4"
    case-insensitively and Letter for every other string, and the canvas
    of the run has the page size selected. *)
Theorem C7_page_size_policy {U : Unicode} (W : world)
    (image_folder output_pdf page_size : str) (cb : option callback)
    (s0 : state) :
  never_raises cb ->
  output_dir_ok W output_pdf ->
  canvas_Canvas W output_pdf = Ret tt ->
  exists pagesize c,
    select_pagesize (PageSizeStr page_size) = Ret pagesize
    /\ st_canvas
         (snd (convert_images_to_pdf W image_folder output_pdf
                 (PageSizeStr page_size) cb s0)) = Some c
    /\ cv_pagesize c = pagesize
    /\ (matches_ignoring_case page_size (u "a4") <-> pagesize = A4)
    /\ (~ matches_ignoring_case page_size (u "a4") <-> pagesize = letter).
Proof.
  intros Hcb Hdir Hc.
  set (pagesize := if str_eqb (str_lower page_size) (u "a4")
                   then A4 else letter).
  destruct (run_canvas_pagesize W image_folder output_pdf
              (PageSizeStr page_size) cb Hcb Hdir s0 pagesize eq_refl Hc)
    as [c [Ec Ep]].
  exists pagesize, c. split; [reflexivity|]. split; [exact Ec|].
  split; [exact Ep|].
  unfold matches_ignoring_case, pagesize. rewrite lower_a4.
  destruct (str_eqb (str_lower page_size) (u "a4")) eqn:E.
  - apply str_eqb_eq in E. pose proof A4_is_not_letter.
    split; split; intros; congruence.
  - assert (str_lower page_size <> u "a4").
    { intros H. apply str_eqb_eq in H. congruence. }
    pose proof A4_is_not_letter.
    split; split; intros; congruence.
Qed.

Lemma C7_page_size_policy_witness :
  exists pagesize c,
    @select_pagesize Latin1 (PageSizeStr (u "A4")) = Ret pagesize
    /\ st_canvas
         (snd (@convert_images_to_pdf Latin1 world_full photos album
                 (PageSizeStr (u "A4")) (Some update_progress) init_state))
       = Some c
    /\ cv_pagesize c = pagesize
    /\ (@matches_ignoring_case Latin1 (u "A4") (u "a4") <-> pagesize = A4)
    /\ (~ @matches_ignoring_case Latin1 (u "A4") (u "a4")
        <-> pagesize = letter).
Proof.
  exact (@C7_page_size_policy Latin1 world_full photos album (u "A4")
           (Some update_progress) init_state update_progress_returns
           (fun _ => eq_refl) eq_refl).
Defined.

(** "A4" and "a4" select A4; "letter", "Letter", "A5" and the empty string
    select Letter. *)
Example select_pagesize_samples {U : Unicode} :
  map (fun s => select_pagesize (PageSizeStr s))
      [u "A4"; u "a4"; u "letter"; u "Letter"; u "A5"; u ""]
  = [Ret A4; Ret A4; Ret letter; Ret letter; Ret letter; Ret letter].
Proof.
  unfold select_pagesize, page_size_lower. cbn [map rbind].
  rewrite !ascii_lower
    by (apply Forall_forall; intros c Hc; apply N.ltb_lt; revert c Hc;
        apply forallb_forall; vm_compute; reflexivity).
  reflexivity.
Qed.

(** ** Placing the image *)

(** The largest integer that is at most the float (zero for a float that
    is not finite). *)
Definition floor_float (f : float) : Z :=
  match Prim2SF f with
  | S754_finite s m e => Z.shiftl (if s then Z.neg m else Z.pos m) e
  | _ => 0%Z
  end.

(** [x == z] for a number [x] and a small int [z]. *)
Definition num_is (x : number) (z : Z) : bool :=
  match x with
  | Int k => (k =? z)%Z
  | Float f => PrimFloat.eqb f (of_uint63 (of_Z z))
  end.

(** The image is drawn at its pixel dimensions, in the middle of the
    page. *)
Definition native_and_centred (width height : float)
    (img_width img_height : Z) (p : placement) : bool :=
  num_is (pl_width p) img_width
  && num_is (pl_height p) img_height
  && PrimFloat.eqb (pl_x p) ((width - of_uint63 (of_Z img_width)) / 2)
  && PrimFloat.eqb (pl_y p) ((height - of_uint63 (of_Z img_height)) / 2).

Definition native_check (width height : float) (img_width img_height : Z)
  : bool :=
  match place_image width height img_width img_height with
  | Ret p => native_and_centred width height img_width img_height p
  | Raise _ => false
  end.

(** The integers [lo], [lo + 1], ..., [n] of them. *)
Fixpoint zrange (lo : Z) (n : nat) : list Z :=
  match n with
  | O => []
  | S n' => lo :: zrange (lo + 1) n'
  end.

Lemma in_zrange (lo z : Z) (n : nat) :
  (lo <= z < lo + Z.of_nat n)%Z -> In z (zrange lo n).
Proof.
  revert lo. induction n as [|n IH]; intros lo H; [lia|].
  simpl. destruct (Z.eq_dec lo z); [now left|].
  right. apply IH. lia.
Qed.

Lemma zrange_check (f : Z -> Z -> bool) (nw nh : nat) (w h : Z) :
  forallb (fun w => forallb (f w) (zrange 1 nh)) (zrange 1 nw) = true ->
  (0 < w <= Z.of_nat nw)%Z -> (0 < h <= Z.of_nat nh)%Z -> f w h = true.
Proof.
  intros H Hw Hh. rewrite forallb_forall in H.
  specialize (H w (in_zrange 1 w nw ltac:(lia))).
  rewrite forallb_forall in H. apply H, in_zrange. lia.
Qed.

(** Every image that fits the margin box of a Letter page, and of an A4
    page, checked size by size. *)
Lemma native_on_letter :
  forallb (fun w => forallb (native_check (fst letter) (snd letter) w)
                            (zrange 1 752)) (zrange 1 572) = true.
Proof. vm_compute. reflexivity. Qed.

Lemma native_on_A4 :
  forallb (fun w => forallb (native_check (fst A4) (snd A4) w)
                            (zrange 1 801)) (zrange 1 555) = true.
Proof. vm_compute. reflexivity. Qed.

Lemma pair_parts {A B : Type} (p : A * B) (a : A) (b : B) :
  p = (a, b) -> a = fst p /\ b = snd p.
Proof. now intros ->. Qed.

Lemma float_of_int_40 : float_of_int (2 * margin) = Ret 40%float.
Proof. reflexivity. Qed.

Lemma float_of_int_2 : float_of_int 2 = Ret 2%float.
Proof. reflexivity. Qed.

(** [<] on floats, from its specification: nothing is below itself, and
    of two floats at most one is below the other. *)
Lemma SFcompare_antisym (x y : spec_float) :
  SFcompare x y = Some Lt -> SFcompare y x = Some Gt.
Proof.
  destruct x as [[]|[]| |[] mx ex], y as [[]|[]| |[] my ey]; simpl;
    try congruence;
    rewrite (Z.compare_antisym ex ey);
    destruct (ex ?= ey)%Z; simpl; try congruence;
    change (Pos.compare_cont Eq my mx) with (my ?= mx)%positive;
    change (Pos.compare_cont Eq mx my) with (mx ?= my)%positive;
    rewrite (Pos.compare_antisym mx my);
    destruct (mx ?= my)%positive; simpl; congruence.
Qed.

Lemma SFcompare_irrefl (x : spec_float) : SFcompare x x <> Some Lt.
Proof.
  destruct x as [[]|[]| |[] m e]; simpl; try congruence;
    rewrite Z.compare_refl;
    change (Pos.compare_cont Eq m m) with (m ?= m)%positive;
    rewrite Pos.compare_refl; simpl; congruence.
Qed.

Lemma float_ltb_irrefl (x : float) : PrimFloat.ltb x x = false.
Proof.
  rewrite FloatAxioms.ltb_spec. unfold SFltb.
  pose proof (SFcompare_irrefl (Prim2SF x)).
  destruct (SFcompare (Prim2SF x) (Prim2SF x)) as [[]|]; congruence.
Qed.

Lemma float_ltb_asym (x y : float) :
  PrimFloat.ltb x y = true -> PrimFloat.ltb y x = false.
Proof.
  rewrite !FloatAxioms.ltb_spec. unfold SFltb.
  destruct (SFcompare (Prim2SF x) (Prim2SF y)) as [[]|] eqn:E;
    try discriminate.
  intros _. now rewrite (SFcompare_antisym _ _ E).
Qed.

(** C1. For an image that decodes to non-zero pixel dimensions, on a page
    of [width] by [height]: with a margin of 20, [max_w = width - 40] and
    [max_h = height - 40], the scale is the minimum of [max_w / img_w] and
    [max_h / img_h] (one of the two, with neither below it); the image is
    drawn at its pixel dimensions when [scale > 1] and at
    [(img_w * scale, img_h * scale)] otherwise, so never larger than it
    is, at [x = (width - drawn_w) / 2], [y = (height - drawn_h) / 2], on a
    page of its own.  On a Letter and on an A4 page an image that fits
    within the margin box is drawn at its pixel dimensions, centred. *)
Theorem C1_scale_to_fit (W : world) (width height : float)
    (image_path : str) (img_width img_height : Z) (fw fh : float) :
  image_getSize W image_path = Ret (img_width, img_height) ->
  img_width <> 0%Z -> img_height <> 0%Z ->
  float_of_int img_width = Ret fw -> float_of_int img_height = Ret fh ->
  let max_w := (width - 40)%float in
  let max_h := (height - 40)%float in
  exists scale p,
    (scale = (max_w / fw)%float \/ scale = (max_h / fh)%float)
    /\ PrimFloat.ltb (max_w / fw) scale = false
    /\ PrimFloat.ltb (max_h / fh) scale = false
    /\ place_image width height img_width img_height = Ret p
    /\ (if PrimFloat.ltb 1 scale
        then pl_width p = Int img_width
             /\ pl_height p = Int img_height
             /\ pl_x p = ((width - fw) / 2)%float
             /\ pl_y p = ((height - fh) / 2)%float
        else pl_width p = Float (fw * scale)
             /\ pl_height p = Float (fh * scale)
             /\ pl_x p = ((width - fw * scale) / 2)%float
             /\ pl_y p = ((height - fh * scale) / 2)%float)
    /\ (canvas_drawImage W image_path = Ret tt ->
        forall handler s c,
          st_canvas s = Some c -> cv_code c = [] ->
          try_except (draw_page W width height image_path) handler s
          = (Ret tt,
             set_canvas s
               (Some (push_pages c [[{| dr_image := image_path;
                                        dr_place := p |}]]))))
    /\ (In (width, height) [letter; A4] ->
        (0 < img_width <= floor_float max_w)%Z ->
        (0 < img_height <= floor_float max_h)%Z ->
        native_and_centred width height img_width img_height p = true).
Proof.
  intros Hsize Hw Hh Hfw Hfh. cbv zeta.
  assert (Hmin :
    (py_min ((width - 40) / fw) ((height - 40) / fh)
     = ((width - 40) / fw)%float
     \/ py_min ((width - 40) / fw) ((height - 40) / fh)
        = ((height - 40) / fh)%float)
    /\ PrimFloat.ltb ((width - 40) / fw)
         (py_min ((width - 40) / fw) ((height - 40) / fh)) = false
    /\ PrimFloat.ltb ((height - 40) / fh)
         (py_min ((width - 40) / fw) ((height - 40) / fh)) = false).
  { unfold py_min.
    destruct (PrimFloat.ltb ((height - 40) / fh) ((width - 40) / fw)) eqn:E.
    - split; [now right|]. split; [now apply float_ltb_asym|].
      apply float_ltb_irrefl.
    - split; [now left|]. split; [apply float_ltb_irrefl | exact E]. }
  destruct Hmin as [Hchoice [Hlow_w Hlow_h]].
  exists (py_min ((width - 40) / fw) ((height - 40) / fh)).
  assert (Hplace :
    place_image width height img_width img_height
    = Ret (if PrimFloat.ltb 1 (py_min ((width - 40) / fw) ((height - 40) / fh))
           then {| pl_x := (width - fw) / 2; pl_y := (height - fh) / 2;
                   pl_width := Int img_width; pl_height := Int img_height |}
           else
             let scale := py_min ((width - 40) / fw) ((height - 40) / fh) in
             {| pl_x := (width - fw * scale) / 2;
                pl_y := (height - fh * scale) / 2;
                pl_width := Float (fw * scale);
                pl_height := Float (fh * scale) |})).
  { unfold place_image, float_sub at 1 2, float_truediv_int.
    rewrite float_of_int_40, Hfw, Hfh, float_of_int_2. cbn [rbind].
    apply Z.eqb_neq in Hw, Hh. rewrite Hw, Hh. cbn [rbind].
    unfold clamp_scale.
    destruct (PrimFloat.ltb 1
                (py_min ((width - 40) / fw) ((height - 40) / fh))).
    - unfold int_mul, float_sub. rewrite !Z.mul_1_r. simpl rbind.
      rewrite Hfw, Hfh. reflexivity.
    - unfold int_mul, float_sub. rewrite Hfw, Hfh. reflexivity. }
  eexists. split; [exact Hchoice|]. split; [exact Hlow_w|].
  split; [exact Hlow_h|]. split; [exact Hplace|]. split; [|split].
  - destruct (PrimFloat.ltb 1
                (py_min ((width - 40) / fw) ((height - 40) / fh)));
      repeat split.
  - intros Hdraw handler s c Hc Hcode.
    rewrite (draw_page_run W width height image_path handler s c Hc Hcode).
    unfold file_outcome. rewrite Hsize. simpl rbind.
    simpl fst. simpl snd. rewrite Hplace, Hdraw. reflexivity.
  - intros Hpage Hbw Hbh.
    assert (Hcheck : native_check width height img_width img_height = true).
    { destruct Hpage as [E|[E|[]]];
        destruct (pair_parts _ _ _ E) as [-> ->].
      - apply (zrange_check (native_check (fst letter) (snd letter))
                 572 752 img_width img_height native_on_letter).
        + replace (floor_float (fst letter - 40)) with 572%Z in Hbw
            by (vm_compute; reflexivity). lia.
        + replace (floor_float (snd letter - 40)) with 752%Z in Hbh
            by (vm_compute; reflexivity). lia.
      - apply (zrange_check (native_check (fst A4) (snd A4))
                 555 801 img_width img_height native_on_A4).
        + replace (floor_float (fst A4 - 40)) with 555%Z in Hbw
            by (vm_compute; reflexivity). lia.
        + replace (floor_float (snd A4 - 40)) with 801%Z in Hbh
            by (vm_compute; reflexivity). lia. }
    unfold native_check in Hcheck. rewrite Hplace in Hcheck. exact Hcheck.
Qed.

Lemma C1_scale_to_fit_witness :
  let width := fst letter in
  let height := snd letter in
  let image_path := u "photos/1.png" in
  exists scale p,
    (scale = ((width - 40) / 100)%float \/ scale = ((height - 40) / 100)%float)
    /\ PrimFloat.ltb ((width - 40) / 100) scale = false
    /\ PrimFloat.ltb ((height - 40) / 100) scale = false
    /\ place_image width height 100 100 = Ret p
    /\ (if PrimFloat.ltb 1 scale
        then pl_width p = Int 100
             /\ pl_height p = Int 100
             /\ pl_x p = ((width - 100) / 2)%float
             /\ pl_y p = ((height - 100) / 2)%float
        else pl_width p = Float (100 * scale)
             /\ pl_height p = Float (100 * scale)
             /\ pl_x p = ((width - 100 * scale) / 2)%float
             /\ pl_y p = ((height - 100 * scale) / 2)%float)
    /\ (canvas_drawImage world_full image_path = Ret tt ->
        forall handler s c,
          st_canvas s = Some c -> cv_code c = [] ->
          try_except (draw_page world_full width height image_path) handler s
          = (Ret tt,
             set_canvas s
               (Some (push_pages c [[{| dr_image := image_path;
                                        dr_place := p |}]]))))
    /\ (In (width, height) [letter; A4] ->
        (0 < 100 <= floor_float (width - 40))%Z ->
        (0 < 100 <= floor_float (height - 40))%Z ->
        native_and_centred width height 100 100 p = true).
Proof.
  exact (C1_scale_to_fit world_full (fst letter) (snd letter)
           (u "photos/1.png") 100 100 100%float 100%float
           eq_refl ltac:(discriminate) ltac:(discriminate) eq_refl eq_refl).
Defined.

(** A tall image of 500 by 3000 on a Letter page is scaled by the ratio of
    the heights, 752 / 3000, the smaller of the two: it is drawn 752 high,
    and a wide image of 3000 by 500 is scaled by 572 / 3000 and drawn 572
    wide. *)
Example place_tall_and_wide_images :
  place_image (fst letter) (snd letter) 500 3000
  = Ret {| pl_x := (612 - 500 * (752 / 3000)) / 2; pl_y := 20;
           pl_width := Float (500 * (752 / 3000)); pl_height := Float 752 |}
  /\ place_image (fst letter) (snd letter) 3000 500
     = Ret {| pl_x := 20; pl_y := (792 - 500 * (572 / 3000)) / 2;
              pl_width := Float 572;
              pl_height := Float (500 * (572 / 3000)) |}.
Proof. split; vm_compute; reflexivity. Qed.

(** An image of 100 by 100 on a page whose margin box is 500 by 500 is
    drawn at 100 by 100, at (220, 220). *)
Example place_small_image :
  place_image 540 540 100 100
  = Ret {| pl_x := 220; pl_y := 220;
           pl_width := Int 100; pl_height := Int 100 |}.
Proof. vm_compute. reflexivity. Qed.

(** An image of 2000 by 1000 on a Letter page, whose margin box is 572 by
    752, is drawn at 572 by 286, at (20, 253). *)
Example place_large_image :
  place_image (fst letter) (snd letter) 2000 1000
  = Ret {| pl_x := 20; pl_y := 253;
           pl_width := Float 572; pl_height := Float 286 |}.
Proof. vm_compute. reflexivity. Qed.

(** An image that decodes to a width of zero cannot be placed: the
    division raises, and the file is skipped as one that fails. *)
Example place_empty_image :
  place_image (fst letter) (snd letter) 0 100 = Raise division_by_zero.
Proof. vm_compute. reflexivity. Qed.

(** * Further properties of the pipeline *)

(** ** Every run, in one formula *)

(** What a run adds to the state it starts in: the directories made, the
    canvas created (if the run gets that far), the messages for the
    callback and the files written. *)
Record summary := {
  sm_made : list str;
  sm_canvas : option canvas;
  sm_events : list str;
  sm_files : list (str * list page)
}.

Definition failed_run (made : list str) (c : option canvas) (e : exn)
  : summary :=
  {| sm_made := made; sm_canvas := c;
     sm_events := [msg_failed e]; sm_files := [] |}.

(** The state a run with that summary ends in, from [s0]. *)
Definition apply_summary (cb : option callback) (s0 : state) (sm : summary)
  : state :=
  {| st_events := st_events s0 ++ emitted cb (sm_events sm);
     st_made_dirs := st_made_dirs s0 ++ sm_made sm;
     st_canvas := match sm_canvas sm with
                  | Some c => Some c
                  | None => st_canvas s0
                  end;
     st_files := st_files s0 ++ sm_files sm;
     st_dialogs := st_dialogs s0;
     st_button := st_button s0 |}.

Section Summary.
Context {U : Unicode}.
Variable W : world.
Variables image_folder output_pdf : str.
Variable page_size : page_size_arg.

(** The run, read off [convert_images_to_pdf] step by step: each step that
    raises ends the run with the message of failure. *)
Definition summarize : summary :=
  let output_dir := os_path_dirname W output_pdf in
  let needed :=
    negb (str_eqb output_dir []) && negb (os_path_exists W output_dir) in
  let made := if needed then [output_dir] else [] in
  match (if needed then os_makedirs W output_dir else Ret tt) with
  | Raise e => failed_run [] None e
  | Ret _ =>
      match select_pagesize page_size with
      | Raise e => failed_run made None e
      | Ret pagesize =>
          match canvas_Canvas W output_pdf with
          | Raise e => failed_run made None e
          | Ret _ =>
              let c := fresh_canvas output_pdf pagesize in
              match os_listdir W image_folder with
              | Raise e => failed_run made (Some c) e
              | Ret entries =>
                  match list_images (map d_name entries) with
                  | Raise e => failed_run made (Some c) e
                  | Ret [] =>
                      {| sm_made := made; sm_canvas := Some c;
                         sm_events := [msg_no_images]; sm_files := [] |}
                  | Ret image_files =>
                      let events :=
                        loop_events W image_folder (fst pagesize)
                          (snd pagesize) (length image_files) 0 image_files in
                      let pages :=
                        loop_pages W image_folder (fst pagesize)
                          (snd pagesize) image_files in
                      let c' := Some (push_pages c pages) in
                      match canvas_save W output_pdf with
                      | Ret _ =>
                          {| sm_made := made; sm_canvas := c';
                             sm_events := events ++ [msg_success output_pdf];
                             sm_files := [(output_pdf, pages)] |}
                      | Raise e =>
                          {| sm_made := made; sm_canvas := c';
                             sm_events := events ++ [msg_failed e];
                             sm_files := [] |}
                      end
                  end
              end
          end
      end
  end.

(** The same once the output directory is there. *)
Lemma run_summary_ok (cb : option callback) (s0 : state) :
  never_raises cb ->
  output_dir_ok W output_pdf ->
  convert_images_to_pdf W image_folder output_pdf page_size cb s0
  = (Ret tt,
     apply_summary cb s0
       match select_pagesize page_size with
       | Raise e => failed_run (made_dirs W output_pdf) None e
       | Ret pagesize =>
           match canvas_Canvas W output_pdf with
           | Raise e => failed_run (made_dirs W output_pdf) None e
           | Ret _ =>
               let c := fresh_canvas output_pdf pagesize in
               match os_listdir W image_folder with
               | Raise e => failed_run (made_dirs W output_pdf) (Some c) e
               | Ret entries =>
                   match list_images (map d_name entries) with
                   | Raise e => failed_run (made_dirs W output_pdf) (Some c) e
                   | Ret [] =>
                       {| sm_made := made_dirs W output_pdf;
                          sm_canvas := Some c;
                          sm_events := [msg_no_images]; sm_files := [] |}
                   | Ret image_files =>
                       let events :=
                         loop_events W image_folder (fst pagesize)
                           (snd pagesize) (length image_files) 0
                           image_files in
                       let pages :=
                         loop_pages W image_folder (fst pagesize)
                           (snd pagesize) image_files in
                       let c' := Some (push_pages c pages) in
                       match canvas_save W output_pdf with
                       | Ret _ =>
                           {| sm_made := made_dirs W output_pdf;
                              sm_canvas := c';
                              sm_events := events ++ [msg_success output_pdf];
                              sm_files := [(output_pdf, pages)] |}
                       | Raise e =>
                           {| sm_made := made_dirs W output_pdf;
                              sm_canvas := c';
                              sm_events := events ++ [msg_failed e];
                              sm_files := [] |}
                       end
                   end
               end
           end
       end).
Proof.
  intros Hcb Hdir.
  destruct (select_pagesize page_size) as [pagesize|e] eqn:Ep.
  - destruct (canvas_Canvas W output_pdf) as [[]|e] eqn:Ec.
    + change (convert_images_to_pdf W image_folder output_pdf page_size cb s0)
        with (run W image_folder output_pdf page_size cb s0).
      destruct (os_listdir W image_folder) as [entries|e] eqn:El.
      * destruct (list_images (map d_name entries)) as [image_files|e] eqn:Ei.
        -- destruct image_files as [|f files].
           ++ now rewrite (run_empty W image_folder output_pdf page_size
                             cb Hcb Hdir s0 pagesize entries Ep Ec El Ei).
           ++ rewrite (run_images W image_folder output_pdf page_size
                         cb Hcb Hdir s0 pagesize entries (f :: files)
                         Ep Ec El Ei ltac:(discriminate)).
              now destruct (canvas_save W output_pdf) as [[]|e].
        -- now rewrite (run_list_images_raises W image_folder output_pdf
                          page_size cb Hcb Hdir s0 pagesize entries e
                          Ep Ec El Ei).
      * now rewrite (run_listdir_raises W image_folder output_pdf
                       page_size cb Hcb Hdir s0 pagesize e Ep Ec El).
    + unfold convert_images_to_pdf, try_except. cbv zeta.
      unfold bind at 1. rewrite (prepare_run W output_pdf Hdir).
      unfold bind at 1, lift at 1. rewrite Ep.
      unfold bind at 1, new_canvas. rewrite Ec.
      rewrite (emit_run cb _ _ Hcb). unfold apply_summary.
      destruct s0. state_eq.
  - unfold convert_images_to_pdf, try_except. cbv zeta.
    unfold bind at 1. rewrite (prepare_run W output_pdf Hdir).
    unfold bind at 1, lift at 1. rewrite Ep.
    rewrite (emit_run cb _ _ Hcb). unfold apply_summary.
    destruct s0. state_eq.
Qed.

(** With a callback that returns, the call returns and the state it
    leaves is the one of the summary. *)
Lemma run_summary (cb : option callback) (s0 : state) :
  never_raises cb ->
  convert_images_to_pdf W image_folder output_pdf page_size cb s0
  = (Ret tt, apply_summary cb s0 summarize).
Proof.
  intros Hcb. unfold summarize. cbv zeta.
  destruct (negb (str_eqb (os_path_dirname W output_pdf) [])
            && negb (os_path_exists W (os_path_dirname W output_pdf)))
    eqn:Eneed.
  - destruct (os_makedirs W (os_path_dirname W output_pdf)) as [[]|e] eqn:Em.
    + rewrite (run_summary_ok cb s0 Hcb) by (intros _; exact Em).
      unfold made_dirs. cbv zeta. now rewrite Eneed.
    + unfold convert_images_to_pdf, try_except. cbv zeta.
      unfold bind at 1. rewrite Eneed. unfold makedirs at 1. rewrite Em.
      rewrite (emit_run cb _ _ Hcb). unfold apply_summary.
      destruct s0. state_eq.
  - rewrite (run_summary_ok cb s0 Hcb).
    + unfold made_dirs. cbv zeta. now rewrite Eneed.
    + intros H. cbv zeta in H. rewrite Eneed in H. discriminate.
Qed.

End Summary.

(** ** The outcome of a run *)

Lemma msg_success_not_no_images (output_pdf : str) :
  msg_success output_pdf <> msg_no_images.
Proof.
  intros H. apply (f_equal (hd 0%N)) in H. vm_compute in H. discriminate.
Qed.

Lemma msg_success_not_failed (output_pdf : str) (e : exn) :
  msg_success output_pdf <> msg_failed e.
Proof.
  intros H. apply (f_equal (hd 0%N)) in H. vm_compute in H. discriminate.
Qed.

Section Outcomes.
Context {U : Unicode}.
Variable W : world.
Variables image_folder output_pdf : str.
Variable page_size : page_size_arg.

(** The shape of every summary: some events, then one last event that
    tells the outcome; a file only with the event of success. *)
Lemma summarize_cases :
  exists before terminal,
    sm_events (summarize W image_folder output_pdf page_size)
    = before ++ [terminal]
    /\ ((terminal = msg_success output_pdf
         /\ exists pages,
              sm_files (summarize W image_folder output_pdf page_size)
              = [(output_pdf, pages)])
        \/ ((terminal = msg_no_images \/ exists e, terminal = msg_failed e)
            /\ sm_files (summarize W image_folder output_pdf page_size) = [])).
Proof.
  unfold summarize. cbv zeta.
  destruct (if negb (str_eqb (os_path_dirname W output_pdf) [])
               && negb (os_path_exists W (os_path_dirname W output_pdf))
            then os_makedirs W (os_path_dirname W output_pdf) else Ret tt)
    as [[]|e]; [|exists [], (msg_failed e); simpl; eauto 6].
  destruct (select_pagesize page_size) as [pagesize|e];
    [|exists [], (msg_failed e); simpl; eauto 6].
  destruct (canvas_Canvas W output_pdf) as [[]|e];
    [|exists [], (msg_failed e); simpl; eauto 6].
  destruct (os_listdir W image_folder) as [entries|e];
    [|exists [], (msg_failed e); simpl; eauto 6].
  destruct (list_images (map d_name entries)) as [[|f files]|e];
    [exists [], msg_no_images; simpl; eauto 6 | |
     exists [], (msg_failed e); simpl; eauto 6].
  destruct (canvas_save W output_pdf) as [[]|e]; eexists; eexists;
    cbn [sm_events sm_files]; (split; [reflexivity|]); eauto 6.
Qed.

End Outcomes.

(** X1. Every call whose callback returns ends with exactly one last
    event that tells the outcome: the event of success, and then exactly
    one file has been written, at the destination; or the event that no
    image was found or an event of failure, and then no file has been
    written.  The event of success is neither of the other two. *)
Theorem last_event_tells_the_outcome {U : Unicode} (W : world)
    (image_folder output_pdf : str) (page_size : page_size_arg)
    (f : callback) (s0 : state) :
  (forall msg, f msg = Ret tt) ->
  let final :=
    snd (convert_images_to_pdf W image_folder output_pdf page_size (Some f)
           s0) in
  exists before terminal,
    st_events final = st_events s0 ++ before ++ [terminal]
    /\ ((terminal = msg_success output_pdf
         /\ exists pages,
              st_files final = st_files s0 ++ [(output_pdf, pages)])
        \/ (terminal <> msg_success output_pdf
            /\ (terminal = msg_no_images \/ exists e, terminal = msg_failed e)
            /\ st_files final = st_files s0)).
Proof.
  intros Hf. cbv zeta.
  assert (Hcb : never_raises (Some f)) by (intros g [= <-]; exact Hf).
  rewrite (run_summary W image_folder output_pdf page_size (Some f) s0 Hcb).
  destruct (summarize_cases W image_folder output_pdf page_size)
    as [before [terminal [Ev Hcase]]].
  exists before, terminal. simpl. rewrite Ev. split; [reflexivity|].
  destruct Hcase as [[Ht [pages Hp]]|[Ht Hn]].
  - left. split; [exact Ht|]. exists pages. now rewrite Hp.
  - right. rewrite Hn, app_nil_r. repeat split; [|exact Ht].
    destruct Ht as [->|[e ->]]; intros H; symmetry in H.
    + exact (msg_success_not_no_images _ H).
    + exact (msg_success_not_failed _ _ H).
Qed.

Lemma last_event_tells_the_outcome_witness :
  let final :=
    snd (@convert_images_to_pdf Latin1 world_readonly photos album
           (PageSizeStr (u "A4")) (Some update_progress) init_state) in
  exists before terminal,
    st_events final = st_events init_state ++ before ++ [terminal]
    /\ ((terminal = msg_success album
         /\ exists pages,
              st_files final = st_files init_state ++ [(album, pages)])
        \/ (terminal <> msg_success album
            /\ (terminal = msg_no_images \/ exists e, terminal = msg_failed e)
            /\ st_files final = st_files init_state)).
Proof.
  exact (@last_event_tells_the_outcome Latin1 world_readonly photos album
           (PageSizeStr (u "A4")) update_progress init_state
           (fun _ => eq_refl)).
Defined.

(** X3. Without a callback the call does the same work in silence: it
    adds no event, and makes the directories, leaves the canvas and writes
    the files that it does with a callback that returns. *)
Theorem no_callback_same_document {U : Unicode} (W : world)
    (image_folder output_pdf : str) (page_size : page_size_arg)
    (f : callback) (s0 : state) :
  (forall msg, f msg = Ret tt) ->
  let silent :=
    convert_images_to_pdf W image_folder output_pdf page_size None s0 in
  let heard :=
    convert_images_to_pdf W image_folder output_pdf page_size (Some f) s0 in
  fst silent = Ret tt
  /\ st_events (snd silent) = st_events s0
  /\ st_files (snd silent) = st_files (snd heard)
  /\ st_canvas (snd silent) = st_canvas (snd heard)
  /\ st_made_dirs (snd silent) = st_made_dirs (snd heard).
Proof.
  intros Hf. cbv zeta.
  assert (Hcb : never_raises (Some f)) by (intros g [= <-]; exact Hf).
  assert (Hno : never_raises None) by (intros g H; discriminate).
  rewrite (run_summary W image_folder output_pdf page_size (Some f) s0 Hcb).
  rewrite (run_summary W image_folder output_pdf page_size None s0 Hno).
  simpl. now rewrite app_nil_r.
Qed.

Lemma no_callback_same_document_witness :
  let silent :=
    @convert_images_to_pdf Latin1 world_partial photos album
      (PageSizeStr (u "A4")) None init_state in
  let heard :=
    @convert_images_to_pdf Latin1 world_partial photos album
      (PageSizeStr (u "A4")) (Some update_progress) init_state in
  fst silent = Ret tt
  /\ st_events (snd silent) = st_events init_state
  /\ st_files (snd silent) = st_files (snd heard)
  /\ st_canvas (snd silent) = st_canvas (snd heard)
  /\ st_made_dirs (snd silent) = st_made_dirs (snd heard).
Proof.
  exact (@no_callback_same_document Latin1 world_partial photos album
           (PageSizeStr (u "A4")) update_progress init_state
           (fun _ => eq_refl)).
Defined.

(** ** The document *)

Lemma file_outcome_image (W : world) (width height : float)
    (image_path : str) (d : drawing) :
  file_outcome W width height image_path = Ret d -> dr_image d = image_path.
Proof.
  unfold file_outcome.
  destruct (image_getSize W image_path) as [size|]; simpl; [|discriminate].
  destruct (place_image width height (fst size) (snd size)); simpl;
    [|discriminate].
  destruct (canvas_drawImage W image_path); simpl; [|discriminate].
  now intros [= <-].
Qed.

(** The files of the list that the loop draws. *)
Definition drawn_files (W : world) (image_folder : str)
    (width height : float) (files : list str) : list str :=
  filter (fun filename =>
            is_ret (file_outcome W width height
                      (os_path_join W image_folder filename))) files.

Lemma loop_pages_images (W : world) (image_folder : str)
    (width height : float) (files : list str) :
  map (map dr_image) (loop_pages W image_folder width height files)
  = map (fun filename => [os_path_join W image_folder filename])
        (drawn_files W image_folder width height files).
Proof.
  unfold loop_pages, drawn_files.
  induction files as [|filename files IH]; [reflexivity|].
  cbn [flat_map filter]. rewrite map_app. unfold page in *. rewrite IH.
  unfold file_pages.
  destruct (file_outcome W width height
              (os_path_join W image_folder filename)) as [d|] eqn:E;
    cbn [is_ret map app]; [|reflexivity].
  now rewrite (file_outcome_image _ _ _ _ _ E).
Qed.

(** X4. Whatever file a call writes is written at [output_pdf], and its
    pages are, in the order of [image_files], one page for each image that
    was read, placed and drawn without error, holding that image alone. *)
Theorem document_has_one_page_per_drawn_image {U : Unicode} (W : world)
    (image_folder output_pdf : str) (page_size : page_size_arg)
    (cb : option callback) (s0 : state) :
  never_raises cb ->
  exists new_files,
    st_files (snd (convert_images_to_pdf W image_folder output_pdf page_size
                     cb s0))
    = st_files s0 ++ new_files
    /\ forall path pages,
         In (path, pages) new_files ->
         path = output_pdf
         /\ exists pagesize entries image_files,
              select_pagesize page_size = Ret pagesize
              /\ os_listdir W image_folder = Ret entries
              /\ list_images (map d_name entries) = Ret image_files
              /\ map (map dr_image) pages
                 = map (fun filename => [os_path_join W image_folder filename])
                       (drawn_files W image_folder (fst pagesize)
                          (snd pagesize) image_files).
Proof.
  intros Hcb.
  rewrite (run_summary W image_folder output_pdf page_size cb s0 Hcb).
  exists (sm_files (summarize W image_folder output_pdf page_size)).
  split; [reflexivity|]. intros path pages. unfold summarize. cbv zeta.
  destruct (if negb (str_eqb (os_path_dirname W output_pdf) [])
               && negb (os_path_exists W (os_path_dirname W output_pdf))
            then os_makedirs W (os_path_dirname W output_pdf) else Ret tt)
    as [[]|e]; [|intros []].
  destruct (select_pagesize page_size) as [pagesize|e]; [|intros []].
  destruct (canvas_Canvas W output_pdf) as [[]|e]; [|intros []].
  destruct (os_listdir W image_folder) as [entries|e]; [|intros []].
  destruct (list_images (map d_name entries)) as [[|f files]|e] eqn:Ei;
    [intros [] | | intros []].
  destruct (canvas_save W output_pdf) as [[]|e]; [|intros []].
  cbn [sm_files]. intros [[= <- <-]|[]]. split; [reflexivity|].
  exists pagesize, entries, (f :: files).
  split; [reflexivity|]. split; [reflexivity|].
  split; [exact Ei || reflexivity|].
  exact (loop_pages_images W image_folder (fst pagesize) (snd pagesize)
           (f :: files)).
Qed.

Lemma document_has_one_page_per_drawn_image_witness :
  exists new_files,
    st_files (snd (@convert_images_to_pdf Latin1 world_partial photos album
                     (PageSizeStr (u "A4")) (Some update_progress)
                     init_state))
    = st_files init_state ++ new_files
    /\ forall path pages,
         In (path, pages) new_files ->
         path = album
         /\ exists pagesize entries image_files,
              @select_pagesize Latin1 (PageSizeStr (u "A4")) = Ret pagesize
              /\ os_listdir world_partial photos = Ret entries
              /\ @list_images Latin1 (map d_name entries) = Ret image_files
              /\ map (map dr_image) pages
                 = map (fun filename => [os_path_join world_partial photos
                                           filename])
                       (drawn_files world_partial photos (fst pagesize)
                          (snd pagesize) image_files).
Proof.
  exact (@document_has_one_page_per_drawn_image Latin1 world_partial photos
           album (PageSizeStr (u "A4")) (Some update_progress) init_state
           update_progress_returns).
Defined.

(** X5. The default value of [page_size] is the tuple [letter], which has
    no [lower]: a call that leaves [page_size] out, or passes any tuple,
    creates no canvas and writes no file, and its one event is an event of
    failure. *)
Theorem tuple_page_size_always_fails {U : Unicode} (W : world)
    (image_folder output_pdf : str) (p : float * float)
    (cb : option callback) (s0 : state) :
  never_raises cb ->
  let final :=
    convert_images_to_pdf W image_folder output_pdf (PageSizeTuple p) cb s0 in
  fst final = Ret tt
  /\ st_canvas (snd final) = st_canvas s0
  /\ st_files (snd final) = st_files s0
  /\ (exists e, st_events (snd final) = st_events s0 ++ emitted cb [msg_failed e])
  /\ (output_dir_ok W output_pdf ->
      st_events (snd final) = st_events s0 ++ emitted cb [msg_failed no_lower]).
Proof.
  intros Hcb. cbv zeta. split; [|split; [|split; [|split]]].
  - now rewrite (run_summary W image_folder output_pdf (PageSizeTuple p)
                   cb s0 Hcb).
  - rewrite (run_summary W image_folder output_pdf (PageSizeTuple p)
               cb s0 Hcb).
    unfold summarize. cbv zeta.
    now destruct (if negb (str_eqb (os_path_dirname W output_pdf) [])
                     && negb (os_path_exists W
                                (os_path_dirname W output_pdf))
                  then os_makedirs W (os_path_dirname W output_pdf)
                  else Ret tt) as [[]|e].
  - rewrite (run_summary W image_folder output_pdf (PageSizeTuple p)
               cb s0 Hcb).
    unfold summarize. cbv zeta.
    destruct (if negb (str_eqb (os_path_dirname W output_pdf) [])
                 && negb (os_path_exists W (os_path_dirname W output_pdf))
              then os_makedirs W (os_path_dirname W output_pdf)
              else Ret tt) as [[]|e]; simpl; now rewrite app_nil_r.
  - rewrite (run_summary W image_folder output_pdf (PageSizeTuple p)
               cb s0 Hcb).
    unfold summarize. cbv zeta.
    destruct (if negb (str_eqb (os_path_dirname W output_pdf) [])
                 && negb (os_path_exists W (os_path_dirname W output_pdf))
              then os_makedirs W (os_path_dirname W output_pdf)
              else Ret tt) as [[]|e]; simpl; eauto.
  - intros Hdir.
    now rewrite (run_summary_ok W image_folder output_pdf (PageSizeTuple p)
                   cb s0 Hcb Hdir).
Qed.

Lemma tuple_page_size_always_fails_witness :
  let final :=
    @convert_images_to_pdf Latin1 world_full photos album
      (PageSizeTuple letter) (Some update_progress) init_state in
  fst final = Ret tt
  /\ st_canvas (snd final) = st_canvas init_state
  /\ st_files (snd final) = st_files init_state
  /\ (exists e, st_events (snd final)
                = st_events init_state
                  ++ emitted (Some update_progress) [msg_failed e])
  /\ (output_dir_ok world_full album ->
      st_events (snd final)
      = st_events init_state
        ++ emitted (Some update_progress) [msg_failed no_lower]).
Proof.
  exact (@tuple_page_size_always_fails Latin1 world_full photos album letter
           (Some update_progress) init_state update_progress_returns).
Defined.

(** X6. The output directory is dealt with before anything else.  When
    it has to be made and cannot be, the run stops there: one event of
    failure with that error, no canvas, no file.  When it is there or can
    be made, the run has made it exactly when [os.path.dirname] of the
    destination is not empty and does not exist, also when the run then
    fails. *)
Theorem output_directory_comes_first {U : Unicode} (W : world)
    (image_folder output_pdf : str) (page_size : page_size_arg)
    (cb : option callback) (s0 : state) :
  never_raises cb ->
  let output_dir := os_path_dirname W output_pdf in
  let needed :=
    negb (str_eqb output_dir []) && negb (os_path_exists W output_dir) in
  let final :=
    snd (convert_images_to_pdf W image_folder output_pdf page_size cb s0) in
  (forall e,
      needed = true -> os_makedirs W output_dir = Raise e ->
      st_events final = st_events s0 ++ emitted cb [msg_failed e]
      /\ st_made_dirs final = st_made_dirs s0
      /\ st_canvas final = st_canvas s0
      /\ st_files final = st_files s0)
  /\ (output_dir_ok W output_pdf ->
      st_made_dirs final
      = st_made_dirs s0 ++ (if needed then [output_dir] else [])).
Proof.
  intros Hcb. cbv zeta. split.
  - intros e Hneed Hm.
    rewrite (run_summary W image_folder output_pdf page_size cb s0 Hcb).
    unfold summarize. cbv zeta. rewrite Hneed, Hm. simpl.
    now rewrite !app_nil_r.
  - intros Hdir.
    rewrite (run_summary_ok W image_folder output_pdf page_size cb s0
               Hcb Hdir).
    destruct (select_pagesize page_size) as [pagesize|e]; [|reflexivity].
    destruct (canvas_Canvas W output_pdf) as [[]|e]; [|reflexivity].
    destruct (os_listdir W image_folder) as [entries|e]; [|reflexivity].
    destruct (list_images (map d_name entries)) as [[|f files]|e];
      try reflexivity.
    now destruct (canvas_save W output_pdf) as [[]|e].
Qed.

(** A world in which the directory of the destination is missing and
    cannot be made. *)
Definition world_no_output_dir : world :=
  {| os_path_dirname := fun _ => u "out";
     os_path_exists := fun _ => false;
     os_makedirs := fun _ => Raise permission_denied;
     os_path_join := join_slash;
     os_listdir := fun _ => Ret three_files;
     canvas_Canvas := fun _ => Ret tt;
     image_getSize := small_image;
     canvas_drawImage := fun _ => Ret tt;
     canvas_save := fun _ => Ret tt |}.

Lemma output_directory_comes_first_witness :
  let W := world_no_output_dir in
  let cb := Some update_progress in
  let final :=
    snd (@convert_images_to_pdf Latin1 W photos album (PageSizeStr (u "A4"))
           cb init_state) in
  (forall e,
      negb (str_eqb (os_path_dirname W album) [])
      && negb (os_path_exists W (os_path_dirname W album)) = true ->
      os_makedirs W (os_path_dirname W album) = Raise e ->
      st_events final = st_events init_state ++ emitted cb [msg_failed e]
      /\ st_made_dirs final = st_made_dirs init_state
      /\ st_canvas final = st_canvas init_state
      /\ st_files final = st_files init_state)
  /\ (output_dir_ok W album ->
      st_made_dirs final
      = st_made_dirs init_state
        ++ (if negb (str_eqb (os_path_dirname W album) [])
               && negb (os_path_exists W (os_path_dirname W album))
            then [os_path_dirname W album] else [])).
Proof.
  exact (@output_directory_comes_first Latin1 world_no_output_dir photos
           album (PageSizeStr (u "A4")) (Some update_progress) init_state
           update_progress_returns).
Defined.

(** ** A callback that raises *)

(** X7. The proviso of C9 is needed.  With a callback that raises on
    every message the call raises the callback's exception, whatever the
    world: the first message it emits raises, the outer handler reports
    that to the callback, which raises again, out of the function.  The
    callback has then been called once or twice, the last time with a
    message of failure, and no file has been written. *)
Theorem raising_callback_raises {U : Unicode} (W : world)
    (image_folder output_pdf : str) (page_size : page_size_arg)
    (f : callback) (e0 : exn) (s0 : state) :
  (forall msg, f msg = Raise e0) ->
  let final :=
    convert_images_to_pdf W image_folder output_pdf page_size (Some f) s0 in
  fst final = Raise e0
  /\ st_files (snd final) = st_files s0
  /\ exists before e,
       st_events (snd final) = st_events s0 ++ before ++ [msg_failed e]
       /\ (length before <= 1)%nat.
Proof.
  intros Hf. cbv zeta.
  pattern (convert_images_to_pdf W image_folder output_pdf page_size
             (Some f) s0).
  match goal with |- ?P _ => set (Q := P) end.
  assert (Hfail : forall e s,
             st_files s = st_files s0 ->
             (exists before, st_events s = st_events s0 ++ before
                             /\ (length before <= 1)%nat) ->
             Q (emit (Some f) (msg_failed e) s)).
  { intros e s Hs [before [Hb Hl]]. unfold Q, emit. rewrite Hf. simpl.
    split; [reflexivity|]. split; [exact Hs|].
    exists before, e. rewrite Hb, app_assoc. now split. }
  unfold convert_images_to_pdf, try_except. cbv zeta. unfold bind at 1.
  assert (Hnil : exists before : list str,
             st_events s0 = st_events s0 ++ before
             /\ (length before <= 1)%nat)
    by (exists []; rewrite app_nil_r; split; [reflexivity | simpl; lia]).
  destruct (negb (str_eqb (os_path_dirname W output_pdf) [])
            && negb (os_path_exists W (os_path_dirname W output_pdf))).
  - unfold makedirs at 1.
    destruct (os_makedirs W (os_path_dirname W output_pdf)) as [[]|e];
      [|now apply Hfail].
    unfold bind at 1, lift at 1.
    destruct (select_pagesize page_size) as [pagesize|e];
      [|apply Hfail; [reflexivity | exact Hnil]].
    unfold bind at 1, new_canvas.
    destruct (canvas_Canvas W output_pdf) as [[]|e];
      [|apply Hfail; [reflexivity | exact Hnil]].
    unfold bind at 1, lift at 1.
    destruct (os_listdir W image_folder) as [entries|e];
      [|apply Hfail; [reflexivity | exact Hnil]].
    unfold bind at 1, lift at 1.
    destruct (list_images (map d_name entries)) as [[|n files]|e];
      [| |apply Hfail; [reflexivity | exact Hnil]].
    + change (length (@nil str) =? 0)%nat with true. cbv iota.
      unfold emit at 1. rewrite Hf. cbv beta iota.
      apply Hfail; [reflexivity|].
      exists [msg_no_images]. split; [reflexivity | simpl; lia].
    + change (length (n :: files) =? 0)%nat with false. cbv iota.
      unfold bind at 1. cbn [process_files].
      unfold bind at 1. unfold emit at 1. rewrite Hf. cbv beta iota.
      apply Hfail; [reflexivity|].
      eexists [_]. split; [reflexivity | simpl; lia].
  - unfold ret at 1.
    unfold bind at 1, lift at 1.
    destruct (select_pagesize page_size) as [pagesize|e];
      [|now apply Hfail].
    unfold bind at 1, new_canvas.
    destruct (canvas_Canvas W output_pdf) as [[]|e];
      [|now apply Hfail].
    unfold bind at 1, lift at 1.
    destruct (os_listdir W image_folder) as [entries|e];
      [|apply Hfail; [reflexivity | exact Hnil]].
    unfold bind at 1, lift at 1.
    destruct (list_images (map d_name entries)) as [[|n files]|e];
      [| |apply Hfail; [reflexivity | exact Hnil]].
    + change (length (@nil str) =? 0)%nat with true. cbv iota.
      unfold emit at 1. rewrite Hf. cbv beta iota.
      apply Hfail; [reflexivity|].
      exists [msg_no_images]. split; [reflexivity | simpl; lia].
    + change (length (n :: files) =? 0)%nat with false. cbv iota.
      unfold bind at 1. cbn [process_files].
      unfold bind at 1. unfold emit at 1. rewrite Hf. cbv beta iota.
      apply Hfail; [reflexivity|].
      eexists [_]. split; [reflexivity | simpl; lia].
Qed.

Definition always_raises : callback :=
  fun _ => Raise (Exn OtherException (u "window destroyed")).

Lemma raising_callback_raises_witness :
  let e0 := Exn OtherException (u "window destroyed") in
  let final :=
    @convert_images_to_pdf Latin1 world_full photos album
      (PageSizeStr (u "A4")) (Some always_raises) init_state in
  fst final = Raise e0
  /\ st_files (snd final) = st_files init_state
  /\ exists before e,
       st_events (snd final)
       = st_events init_state ++ before ++ [msg_failed e]
       /\ (length before <= 1)%nat.
Proof.
  exact (@raising_callback_raises Latin1 world_full photos album
           (PageSizeStr (u "A4")) always_raises
           (Exn OtherException (u "window destroyed")) init_state
           (fun _ => eq_refl)).
Defined.

(** ** The window *)

(** X8. [start_conversion] returns with the start button enabled and
    exactly one message box shown.  With the folder field empty, and with
    the folder chosen but the destination field empty, the box is the
    error asking for the missing field and nothing else happens: no event,
    no directory, no canvas, no file.  With both fields filled in the box
    is the box of success, whatever the conversion did. *)
Theorem start_conversion_shows_one_box {U : Unicode} (W : world)
    (image_folder output_pdf page_size : str) :
  let final := start_conversion W image_folder output_pdf page_size init_state in
  fst final = Ret tt
  /\ st_button (snd final) = true
  /\ (image_folder = [] ->
      snd final
      = set_dialogs init_state
          [ShowError (u "错误") (u "请选择图片文件夹！")])
  /\ (image_folder <> [] -> output_pdf = [] ->
      snd final
      = set_dialogs init_state
          [ShowError (u "错误") (u "请选择PDF保存路径！")])
  /\ (image_folder <> [] -> output_pdf <> [] ->
      st_dialogs (snd final) = [success_dialog output_pdf]).
Proof.
  cbv zeta.
  destruct (list_eq_dec N.eq_dec image_folder []) as [Ef|Ef].
  - subst. unfold start_conversion. simpl. repeat split; congruence.
  - destruct (list_eq_dec N.eq_dec output_pdf []) as [Eo|Eo].
    + subst. unfold start_conversion.
      destruct (str_eqb image_folder []) eqn:E;
        [apply str_eqb_eq in E; congruence|].
      simpl. repeat split; congruence.
    + rewrite (start_conversion_run W image_folder output_pdf page_size Ef Eo).
      cbv zeta.
      rewrite (run_summary W image_folder output_pdf (PageSizeStr page_size)
                 (Some update_progress) _ update_progress_returns).
      simpl. repeat split; congruence.
Qed.

(** ** An image without pixels *)

Lemma place_image_zero (width height : float) (img_width img_height : Z) :
  img_width = 0%Z
  \/ (img_height = 0%Z /\ is_ret (float_of_int img_width) = true) ->
  place_image width height img_width img_height = Raise division_by_zero.
Proof.
  intros H. unfold place_image, float_sub at 1 2.
  rewrite float_of_int_40. cbn [rbind]. unfold float_truediv_int at 1.
  destruct H as [->|[-> Hw]]; [reflexivity|].
  destruct (float_of_int img_width) as [fw|]; [|discriminate].
  cbn [rbind]. destruct (img_width =? 0)%Z; reflexivity.
Qed.

(** X9. An image that decodes to a width or a height of zero (the width
    being one that converts to a float) is a file that fails: the division
    of line 68 raises [ZeroDivisionError] inside the [try], so the loop
    announces the file, emits the warning with that error, draws nothing,
    and goes on with the next file. *)
Theorem zero_size_image_is_skipped (W : world) (image_folder : str)
    (width height : float) (cb : option callback) (total i : nat)
    (filename : str) (files : list str) (img_width img_height : Z)
    (s : state) :
  image_getSize W (os_path_join W image_folder filename)
  = Ret (img_width, img_height) ->
  img_width = 0%Z
  \/ (img_height = 0%Z /\ is_ret (float_of_int img_width) = true) ->
  process_files W image_folder width height cb total i (filename :: files) s
  = (emit cb (msg_processing i total filename) ;;
     emit cb (msg_warning filename division_by_zero) ;;
     process_files W image_folder width height cb total (S i) files)%M s.
Proof.
  intros Hsize Hzero. cbn [process_files]. unfold bind at 1 3.
  destruct (emit cb (msg_processing i total filename) s) as [[[]|e] s1];
    [|reflexivity].
  unfold bind at 1 2. unfold try_except, draw_page, bind at 1, lift at 1.
  rewrite Hsize. unfold bind at 1, lift at 1. cbn [fst snd].
  now rewrite (place_image_zero width height img_width img_height Hzero).
Qed.

Definition empty_image (path : str) : result (Z * Z) := Ret (0, 100)%Z.

Lemma zero_size_image_is_skipped_witness :
  let W := sample_world (Ret three_files) empty_image (Ret tt) in
  let cb := Some update_progress in
  process_files W photos (fst A4) (snd A4) cb 1 0 [u "1.png"] init_state
  = (emit cb (msg_processing 0 1 (u "1.png")) ;;
     emit cb (msg_warning (u "1.png") division_by_zero) ;;
     process_files W photos (fst A4) (snd A4) cb 1 1 [])%M init_state.
Proof.
  exact (zero_size_image_is_skipped
           (sample_world (Ret three_files) empty_image (Ret tt)) photos
           (fst A4) (snd A4) (Some update_progress) 1 0 (u "1.png") []
           0 100 init_state eq_refl (or_introl eq_refl)).
Defined.

(** ** More on the natural order *)

(** X10. The keys of any two names that have keys can be compared: the
    comparison does not raise, and exactly one of three holds: the first
    key is smaller, the second is smaller, or the keys are equal. *)
Theorem natural_keys_are_comparable {U : Unicode} (f g : str)
    (kf kg : pykey) :
  natural_sort_key f = Ret kf ->
  natural_sort_key g = Ret kg ->
  (key_lt kf kg = Ret true /\ key_lt kg kf = Ret false /\ kf <> kg)
  \/ (key_lt kf kg = Ret false /\ key_lt kg kf = Ret true /\ kf <> kg)
  \/ (key_lt kf kg = Ret false /\ key_lt kg kf = Ret false /\ kf = kg).
Proof.
  intros Hf Hg.
  pose proof (natural_sort_key_alternates f kf Hf) as Af.
  pose proof (natural_sort_key_alternates g kg Hg) as Ag.
  rewrite (key_lt_alternates kf kg true Af Ag),
    (key_lt_alternates kg kf true Ag Af).
  destruct (key_ltb kf kg) eqn:E1.
  - left. rewrite (key_ltb_asym kf kg E1). repeat split.
    intros ->. rewrite key_ltb_irrefl in E1. discriminate.
  - destruct (key_ltb kg kf) eqn:E2.
    + right. left. repeat split.
      intros ->. rewrite key_ltb_irrefl in E2. discriminate.
    + right. right. repeat split. now apply key_ltb_total.
Qed.

Lemma natural_keys_are_comparable_witness :
  let kf := [KStr (u "img"); KInt 2; KStr (u ".png")] in
  let kg := [KStr (u "img"); KInt 10; KStr (u ".png")] in
  (key_lt kf kg = Ret true /\ key_lt kg kf = Ret false /\ kf <> kg)
  \/ (key_lt kf kg = Ret false /\ key_lt kg kf = Ret true /\ kf <> kg)
  \/ (key_lt kf kg = Ret false /\ key_lt kg kf = Ret false /\ kf = kg).
Proof.
  exact (@natural_keys_are_comparable Latin1 (u "img2.png") (u "IMG10.png")
           [KStr (u "img"); KInt 2; KStr (u ".png")]
           [KStr (u "img"); KInt 10; KStr (u ".png")] eq_refl eq_refl).
Defined.

Section Runs_of_digits.
Context {U : Unicode}.

(** The text is empty or starts with a character that is not a decimal
    digit. *)
Definition starts_text (t : str) : Prop :=
  match t with
  | [] => True
  | c :: _ => is_decimal c = false
  end.

Lemma re_split_digits_nonempty (s : str) : re_split_digits s <> [].
Proof.
  pose proof (re_split_digits_shape s) as H.
  destruct (re_split_digits s); [simpl in H; discriminate | discriminate].
Qed.

Lemma re_split_digits_starts_text (t : str) :
  starts_text t ->
  match re_split_digits t with
  | [] :: _ :: _ => False
  | _ => True
  end.
Proof.
  destruct t as [|c t]; [now simpl|]. simpl. intros Hc. rewrite Hc.
  now destruct (re_split_digits t).
Qed.

(** A run of digits before such a text is one piece. *)
Lemma re_split_digits_run (r t : str) :
  r <> [] -> forallb is_decimal r = true -> starts_text t ->
  re_split_digits (r ++ t) = [] :: r :: re_split_digits t.
Proof.
  intros Hne Hr Ht. induction r as [|c r IH]; [congruence|].
  simpl in Hr. apply andb_prop in Hr as [Hc Hr].
  destruct r as [|c' r].
  - simpl. rewrite Hc.
    pose proof (re_split_digits_starts_text t Ht) as Hs.
    pose proof (re_split_digits_nonempty t) as Hn.
    destruct (re_split_digits t) as [|text rest]; [congruence|].
    destruct text as [|x text]; [|reflexivity].
    destruct rest; [reflexivity | contradiction].
  - change ((c :: c' :: r) ++ t) with (c :: ((c' :: r) ++ t)).
    cbn [re_split_digits]. rewrite IH by (congruence || assumption).
    now rewrite Hc.
Qed.

(** A text without digits before anything joins its first piece. *)
Lemma re_split_digits_text (p s : str) :
  forallb (fun c => negb (is_decimal c)) p = true ->
  re_split_digits (p ++ s)
  = match re_split_digits s with
    | [] => [p]
    | text :: rest => (p ++ text) :: rest
    end.
Proof.
  intros Hp. induction p as [|c p IH].
  - simpl. pose proof (re_split_digits_nonempty s) as Hn.
    destruct (re_split_digits s); [congruence | reflexivity].
  - simpl in Hp. apply andb_prop in Hp as [Hc Hp].
    apply negb_true_iff in Hc.
    change ((c :: p) ++ s) with (c :: (p ++ s)).
    cbn [re_split_digits]. rewrite (IH Hp), Hc.
    pose proof (re_split_digits_nonempty s) as Hn.
    destruct (re_split_digits s); [congruence | reflexivity].
Qed.

Lemma re_split_digits_text_run (p r t : str) :
  forallb (fun c => negb (is_decimal c)) p = true ->
  r <> [] -> forallb is_decimal r = true -> starts_text t ->
  re_split_digits (p ++ r ++ t) = p :: r :: re_split_digits t.
Proof.
  intros Hp Hne Hr Ht.
  rewrite (re_split_digits_text p (r ++ t) Hp),
    (re_split_digits_run r t Hne Hr Ht).
  now rewrite app_nil_r.
Qed.

(** The key of a name that starts with a text and a run of digits. *)
Lemma natural_sort_key_text_run (p r t : str) (k : pykey) (n : Z) :
  forallb (fun c => negb (is_decimal c)) p = true ->
  r <> [] -> forallb is_decimal r = true -> starts_text t ->
  int_digits 0 r = Some n ->
  natural_sort_key (p ++ r ++ t) = Ret k ->
  exists k', k = KStr (str_lower p) :: KInt n :: k'
             /\ natural_sort_key t = Ret k'.
Proof.
  intros Hp Hne Hr Ht Hn. unfold natural_sort_key.
  rewrite (re_split_digits_text_run p r t Hp Hne Hr Ht). cbn [rmap].
  destruct (key_of_text p) as [x|] eqn:Ex; cbn [rbind]; [|discriminate].
  rewrite (key_of_text_text p x Hp Ex).
  destruct (key_of_text_run r Hne Hr) as [m [Hm Er]].
  rewrite Er. cbn [rbind]. rewrite Hn in Hm. injection Hm as <-.
  destruct (rmap key_of_text (re_split_digits t)) as [k'|]; cbn [rbind];
    [|discriminate].
  intros [= <-]. now exists k'.
Qed.

End Runs_of_digits.

(** X11. Runs of digits are compared as numbers.  Of two names that
    start with the same text (up to case) followed by a run of decimal
    digits, the one whose run writes the smaller number has the smaller
    key, however many digits the runs have and whatever follows them;
    when the runs write the same number and the same follows, the keys
    are equal, leading zeros or not. *)
Theorem digit_runs_compare_as_numbers {U : Unicode}
    (p1 p2 r1 r2 t1 t2 : str) (n1 n2 : Z) (k1 k2 : pykey) :
  forallb (fun c => negb (is_decimal c)) p1 = true ->
  forallb (fun c => negb (is_decimal c)) p2 = true ->
  str_lower p1 = str_lower p2 ->
  r1 <> [] -> forallb is_decimal r1 = true -> starts_text t1 ->
  r2 <> [] -> forallb is_decimal r2 = true -> starts_text t2 ->
  int_digits 0 r1 = Some n1 -> int_digits 0 r2 = Some n2 ->
  natural_sort_key (p1 ++ r1 ++ t1) = Ret k1 ->
  natural_sort_key (p2 ++ r2 ++ t2) = Ret k2 ->
  ((n1 < n2)%Z -> key_lt k1 k2 = Ret true /\ key_lt k2 k1 = Ret false)
  /\ (n1 = n2 -> t1 = t2 -> k1 = k2).
Proof.
  intros Hp1 Hp2 Hl Hne1 Hr1 Ht1 Hne2 Hr2 Ht2 Hn1 Hn2 Hk1 Hk2.
  destruct (natural_sort_key_text_run p1 r1 t1 k1 n1 Hp1 Hne1 Hr1 Ht1 Hn1 Hk1)
    as [k1' [-> E1]].
  destruct (natural_sort_key_text_run p2 r2 t2 k2 n2 Hp2 Hne2 Hr2 Ht2 Hn2 Hk2)
    as [k2' [-> E2]].
  rewrite Hl. split.
  - intros Hlt. cbn [key_lt elem_eqb]. rewrite str_eqb_refl.
    replace (n1 =? n2)%Z with false by (symmetry; apply Z.eqb_neq; lia).
    replace (n2 =? n1)%Z with false by (symmetry; apply Z.eqb_neq; lia).
    cbn [elem_lt]. split; f_equal; [apply Z.ltb_lt | apply Z.ltb_ge]; lia.
  - intros -> ->. rewrite E1 in E2. now injection E2 as ->.
Qed.

Lemma digit_runs_compare_as_numbers_witness :
  let k1 := [KStr (u "img"); KInt 7; KStr (u ".png")] in
  let k2 := [KStr (u "img"); KInt 10; KStr (u ".png")] in
  ((7 < 10)%Z -> key_lt k1 k2 = Ret true /\ key_lt k2 k1 = Ret false)
  /\ (7%Z = 10%Z -> u ".png" = u ".png" -> k1 = k2).
Proof.
  exact (@digit_runs_compare_as_numbers Latin1
           (u "IMG") (u "img") (u "007") (u "10") (u ".png") (u ".png")
           7 10
           [KStr (u "img"); KInt 7; KStr (u ".png")]
           [KStr (u "img"); KInt 10; KStr (u ".png")]
           eq_refl eq_refl eq_refl
           ltac:(discriminate) eq_refl eq_refl
           ltac:(discriminate) eq_refl eq_refl
           eq_refl eq_refl eq_refl eq_refl).
Defined.

(** ** Case and the order of the listing *)

Section Lowercase.
Context {U : Unicode}.

Lemma ascii_lower_char_ascii (c : N) :
  is_ascii c -> is_ascii (ascii_lower_char c).
Proof.
  unfold is_ascii, ascii_lower_char. intros H.
  destruct ((65 <=? c)%N && (c <=? 90)%N) eqn:E; [|exact H].
  apply andb_prop in E as [_ E]. apply N.leb_le in E. lia.
Qed.

Lemma ascii_lower_char_range (c : N) :
  ((48 <=? ascii_lower_char c) && (ascii_lower_char c <=? 57))%N
  = ((48 <=? c) && (c <=? 57))%N.
Proof.
  unfold ascii_lower_char.
  destruct ((65 <=? c)%N && (c <=? 90)%N) eqn:E; [|reflexivity].
  apply andb_prop in E as [E1 E2]. apply N.leb_le in E1, E2.
  replace (c + 32 <=? 57)%N with false by (symmetry; apply N.leb_gt; lia).
  replace (c <=? 57)%N with false by (symmetry; apply N.leb_gt; lia).
  now rewrite !andb_false_r.
Qed.

Lemma ascii_lower_char_idem (c : N) :
  ascii_lower_char (ascii_lower_char c) = ascii_lower_char c.
Proof.
  unfold ascii_lower_char.
  destruct ((65 <=? c)%N && (c <=? 90)%N) eqn:E; [|now rewrite E].
  apply andb_prop in E as [E1 E2]. apply N.leb_le in E1, E2.
  replace (c + 32 <=? 90)%N with false by (symmetry; apply N.leb_gt; lia).
  now rewrite andb_false_r.
Qed.

Lemma to_decimal_lower (c : N) :
  is_ascii c -> to_decimal (ascii_lower_char c) = to_decimal c.
Proof.
  intros H.
  rewrite (@ascii_decimal _ _ (ascii_lower_char_ascii c H)),
    (@ascii_decimal _ c H).
  rewrite ascii_lower_char_range.
  destruct ((48 <=? c)%N && (c <=? 57)%N) eqn:E; [|reflexivity].
  unfold ascii_lower_char.
  apply andb_prop in E as [E1 E2]. apply N.leb_le in E1, E2.
  replace (65 <=? c)%N with false by (symmetry; apply N.leb_gt; lia).
  reflexivity.
Qed.

Lemma is_digit_lower (c : N) :
  is_ascii c -> is_digit (ascii_lower_char c) = is_digit c.
Proof.
  intros H.
  rewrite (@ascii_digit _ _ (ascii_lower_char_ascii c H)),
    (@ascii_digit _ c H).
  apply ascii_lower_char_range.
Qed.

Lemma re_split_digits_lower (s : str) :
  ascii_str s ->
  re_split_digits (map ascii_lower_char s)
  = map (map ascii_lower_char) (re_split_digits s).
Proof.
  induction 1 as [|c s Hc Hs IH]; [reflexivity|].
  cbn [map re_split_digits]. rewrite IH. unfold is_decimal.
  rewrite (to_decimal_lower c Hc).
  destruct (re_split_digits s) as [|text rest]; [reflexivity|].
  cbn [map]. destruct (to_decimal c); [|reflexivity].
  destruct text; [|reflexivity]. now destruct rest.
Qed.

Lemma digits_lower (p : str) :
  ascii_str p -> forallb is_digit p = true -> map ascii_lower_char p = p.
Proof.
  induction 1 as [|c p Hc Hp IH]; [reflexivity|].
  cbn [forallb map]. intros E. apply andb_prop in E as [Ec Ep].
  rewrite (IH Ep). f_equal.
  rewrite (@ascii_digit _ c Hc) in Ec. unfold ascii_lower_char.
  apply andb_prop in Ec as [E1 E2]. apply N.leb_le in E1, E2.
  replace (65 <=? c)%N with false by (symmetry; apply N.leb_gt; lia).
  reflexivity.
Qed.

Lemma key_of_text_lower (p : str) :
  ascii_str p -> key_of_text (map ascii_lower_char p) = key_of_text p.
Proof.
  intros H.
  assert (Hl : ascii_str (map ascii_lower_char p)).
  { apply Forall_map. eapply Forall_impl; [|exact H].
    apply ascii_lower_char_ascii. }
  unfold key_of_text, isdigit, int_of_str.
  rewrite (@ascii_lower _ _ Hl), (@ascii_lower _ p H), map_map.
  rewrite (map_ext _ _ ascii_lower_char_idem).
  assert (Hd : forallb is_digit (map ascii_lower_char p)
               = forallb is_digit p).
  { clear Hl. induction H as [|c p Hc Hp IH]; [reflexivity|].
    cbn [map forallb]. now rewrite IH, (is_digit_lower c Hc). }
  assert (Hi : forall acc, int_digits acc (map ascii_lower_char p)
                           = int_digits acc p).
  { clear Hl Hd. induction H as [|c p Hc Hp IH]; intros acc; [reflexivity|].
    cbn [map int_digits]. rewrite (to_decimal_lower c Hc).
    destruct (to_decimal c); [apply IH | reflexivity]. }
  rewrite Hd, Hi. destruct p as [|c p]; [reflexivity|].
  cbn [map]. destruct (forallb is_digit (c :: p)) eqn:E; [|reflexivity].
  change (ascii_lower_char c :: map ascii_lower_char p)
    with (map ascii_lower_char (c :: p)).
  now rewrite (digits_lower (c :: p) H E).
Qed.

Lemma natural_sort_key_lower (s : str) :
  ascii_str s ->
  natural_sort_key (map ascii_lower_char s) = natural_sort_key s.
Proof.
  intros H. unfold natural_sort_key. rewrite (re_split_digits_lower s H).
  assert (Hp : Forall ascii_str (re_split_digits s)).
  { apply Forall_concat. now rewrite re_split_digits_concat. }
  induction Hp as [|p ps Hp Hps IH]; [reflexivity|].
  cbn [map rmap]. now rewrite (key_of_text_lower p Hp), IH.
Qed.

End Lowercase.

(** X12. The key does not see case: two ASCII names that are equal once
    'A'..'Z' are replaced by 'a'..'z' have the same key, so the sort ties
    them and leaves them in the order of the listing. *)
Theorem natural_sort_key_ignores_case {U : Unicode} (s t : str) :
  ascii_str s -> ascii_str t ->
  map ascii_lower_char s = map ascii_lower_char t ->
  natural_sort_key s = natural_sort_key t.
Proof.
  intros Hs Ht E.
  rewrite <- (natural_sort_key_lower s Hs), <- (natural_sort_key_lower t Ht).
  now rewrite E.
Qed.

Lemma natural_sort_key_ignores_case_witness :
  @natural_sort_key Latin1 (u "IMG12.PNG")
  = @natural_sort_key Latin1 (u "img12.png").
Proof.
  apply (@natural_sort_key_ignores_case Latin1 (u "IMG12.PNG")
           (u "img12.png")).
  - apply Forall_forall. intros c Hc. apply N.ltb_lt.
    revert c Hc. apply forallb_forall. vm_compute. reflexivity.
  - apply Forall_forall. intros c Hc. apply N.ltb_lt.
    revert c Hc. apply forallb_forall. vm_compute. reflexivity.
  - vm_compute. reflexivity.
Defined.

Lemma filter_perm {A : Type} (p : A -> bool) (l1 l2 : list A) :
  Permutation l1 l2 -> Permutation (filter p l1) (filter p l2).
Proof.
  induction 1 as [|x l1 l2 H IH|x y l|l1 l2 l3 H1 IH1 H2 IH2]; simpl.
  - constructor.
  - destruct (p x); [now constructor | exact IH].
  - destruct (p x), (p y); try reflexivity. apply perm_swap.
  - now transitivity (filter p l2).
Qed.

Section Uniqueness.
Context {U : Unicode}.

(** Two arrangements of the same names of different keys that are both in
    key order are the same list. *)
Lemma key_sorted_unique (l1 l2 : list str) :
  Permutation l1 l2 ->
  NoDup (map key_of l1) ->
  StronglySorted (fun f g => key_ltb (key_of g) (key_of f) = false) l1 ->
  StronglySorted (fun f g => key_ltb (key_of g) (key_of f) = false) l2 ->
  l1 = l2.
Proof.
  revert l2. induction l1 as [|a l1 IH]; intros l2 P N S1 S2.
  - now apply Permutation_nil in P.
  - destruct l2 as [|b l2];
      [symmetry in P; now apply Permutation_nil in P|].
    assert (Eab : a = b).
    { destruct (list_eq_dec N.eq_dec a b) as [E|E]; [exact E|]. exfalso.
      assert (Hb : In b l1).
      { assert (In b (a :: l1))
          by (eapply Permutation_in; [symmetry; exact P | now left]).
        destruct H; congruence. }
      assert (Ha : In a l2).
      { assert (In a (b :: l2))
          by (eapply Permutation_in; [exact P | now left]).
        destruct H; congruence. }
      inversion S1 as [|? ? _ F1]; subst.
      inversion S2 as [|? ? _ F2]; subst.
      rewrite Forall_forall in F1, F2.
      pose proof (key_ltb_total _ _ (F2 a Ha) (F1 b Hb)) as K.
      inversion N as [|? ? Hnot _]; subst. apply Hnot.
      rewrite K. now apply in_map. }
    subst b. f_equal. apply IH.
    + eapply Permutation_cons_inv. exact P.
    + now inversion N.
    + now inversion S1.
    + now inversion S2.
Qed.

Lemma NoDup_key_of (l : list str) :
  Forall has_key l -> NoDup (map natural_sort_key l) -> NoDup (map key_of l).
Proof.
  intros H. induction H as [|f l Hf Hl IH]; intros N; simpl; [constructor|].
  inversion N as [|? ? Hnot N']; subst. constructor; [|now apply IH].
  intros Hin. apply Hnot. apply in_map_iff in Hin as [g [Eg Hg]].
  apply in_map_iff. exists g. split; [|exact Hg].
  rewrite Forall_forall in Hl.
  now rewrite (has_key_of g (Hl g Hg)), (has_key_of f Hf), Eg.
Qed.

End Uniqueness.

(** X13. The order in which [os.listdir] gives the names does not matter
    when no two retained names have the same key: two listings of the same
    names, in any two orders, give the same [image_files]. *)
Theorem listing_order_does_not_matter {U : Unicode}
    (names1 names2 : list str) :
  Permutation names1 names2 ->
  Forall has_key (retained names1) ->
  NoDup (map natural_sort_key (retained names1)) ->
  exists image_files,
    list_images names1 = Ret image_files
    /\ list_images names2 = Ret image_files.
Proof.
  intros P H N.
  assert (PR : Permutation (retained names1) (retained names2))
    by (apply filter_perm, P).
  assert (H2 : Forall has_key (retained names2))
    by (eapply Permutation_Forall; eassumption).
  exists (map snd (sort_pure [] (keyed (retained names1)))).
  split; [now apply sorted_pure|].
  unfold list_images. rewrite (sorted_pure _ H2). f_equal. symmetry.
  apply key_sorted_unique.
  - rewrite !sort_names_perm. exact PR.
  - apply NoDup_key_of.
    + eapply Permutation_Forall; [symmetry; apply sort_names_perm | exact H].
    + eapply Permutation_NoDup; [|exact N].
      apply Permutation_map. symmetry. apply sort_names_perm.
  - apply sort_names_sorted.
  - apply sort_names_sorted.
Qed.

Lemma listing_order_does_not_matter_witness :
  exists image_files,
    @list_images Latin1 img_names = Ret image_files
    /\ @list_images Latin1 (rev img_names) = Ret image_files.
Proof.
  apply (@listing_order_does_not_matter Latin1 img_names (rev img_names)).
  - apply Permutation_rev.
  - apply has_key_check. vm_compute. reflexivity.
  - vm_compute. repeat constructor; simpl; intuition discriminate.
Defined.
